(** * SecureClaw audit runner: normalizer, risk scorer, differ, alerter,
      reporter and CLI exit status, embedded from the TypeScript sources
      under [packages/audit-runner]. *)

From Stdlib Require Import Strings.String Strings.Ascii.
From Stdlib Require Import ZArith NArith List Lia Permutation Sorted DecimalString.
From stdpp Require Import base decidable countable gmap sets list.
Import ListNotations.

Local Open Scope Z_scope.

(** ** JavaScript strings and object literals *)

(** A JavaScript string is a sequence of UTF-16 code units; [length],
    [slice] and [startsWith] all count code units. *)
Abbreviation jsstring := (list N).

Module Js.

(** An ASCII literal, one code unit per character. *)
Definition lit (s : string) : jsstring :=
  List.map N_of_ascii (list_ascii_of_string s).

(** [s.toUpperCase()] and [s.toLowerCase()].  The ASCII letters are mapped
    as the engine maps them; code units outside ASCII are kept as they are
    (the engine's Unicode case tables are not part of this development). *)
Definition upper_unit (u : N) : N :=
  if ((97 <=? u) && (u <=? 122))%N then (u - 32)%N else u.

Definition lower_unit (u : N) : N :=
  if ((65 <=? u) && (u <=? 90))%N then (u + 32)%N else u.

Definition toUpperCase (s : jsstring) : jsstring := List.map upper_unit s.
Definition toLowerCase (s : jsstring) : jsstring := List.map lower_unit s.

(** The regular-expression class [\s]: TAB, LF, VT, FF, CR, space, NBSP,
    U+1680, U+2000..U+200A, U+2028, U+2029, U+202F, U+205F, U+3000, BOM. *)
Definition isWhiteSpace (u : N) : bool :=
  ((9 <=? u) && (u <=? 13) || (u =? 32) || (u =? 160) || (u =? 5760)
   || (8192 <=? u) && (u <=? 8202) || (u =? 8232) || (u =? 8233)
   || (u =? 8239) || (u =? 8287) || (u =? 12288) || (u =? 65279))%N.

(** [s.replace(/\s/g, "")] *)
Definition removeWhiteSpace (s : jsstring) : jsstring :=
  List.filter (fun u => negb (isWhiteSpace u)) s.

(** [s.replace(/[- ]/g, "_")] *)
Definition dashSpaceToUnderscore (s : jsstring) : jsstring :=
  List.map (fun u => if ((u =? 45) || (u =? 32))%N then 95%N else u) s.

(** [s.startsWith(p)] *)
Fixpoint startsWith (p s : jsstring) : bool :=
  match p, s with
  | [], _ => true
  | _ :: _, [] => false
  | a :: p', b :: s' => (a =? b)%N && startsWith p' s'
  end.

(** [s.slice(0, n)] for a non-negative [n]. *)
Definition slice0 (n : nat) (s : jsstring) : jsstring := firstn n s.

(** [parts.join(sep)] *)
Fixpoint join (sep : jsstring) (parts : list jsstring) : jsstring :=
  match parts with
  | [] => []
  | [p] => p
  | p :: rest => p ++ sep ++ join sep rest
  end.

(** [s.split(",")] for a one-unit separator *)
Fixpoint split (sep : N) (s : jsstring) : list jsstring :=
  match s with
  | [] => [[]]
  | u :: s' =>
      if (u =? sep)%N then [] :: split sep s'
      else match split sep s' with
           | p :: ps => (u :: p) :: ps
           | [] => [[u]]
           end
  end.

(** [s.trim()] *)
Fixpoint trimStart (s : jsstring) : jsstring :=
  match s with
  | u :: s' => if isWhiteSpace u then trimStart s' else s
  | [] => []
  end.

Definition trim (s : jsstring) : jsstring := rev (trimStart (rev (trimStart s))).

(** A non-negative integer interpolated into a template string. *)
Definition ofNat (n : nat) : jsstring :=
  lit (NilZero.string_of_uint (Nat.to_uint n)).

(** Truthiness of a string: only the empty string is falsy. *)
Definition truthy (s : jsstring) : bool :=
  match s with [] => false | _ => true end.

(** Reading [obj[k]] on an object literal.  A key the literal does not
    define falls through to [Object.prototype], whose members are all
    truthy (functions, and the prototype object itself for [__proto__]). *)
Inductive PropRead (A : Type) : Type :=
  | Own (a : A)
  | Inherited (name : jsstring)
  | Missing.
Arguments Own {A} a.
Arguments Inherited {A} name.
Arguments Missing {A}.

Definition objectPrototypeKeys : list jsstring :=
  List.map lit
    [ "constructor"; "__defineGetter__"; "__defineSetter__";
      "hasOwnProperty"; "__lookupGetter__"; "__lookupSetter__";
      "isPrototypeOf"; "propertyIsEnumerable"; "toString"; "valueOf";
      "__proto__"; "toLocaleString" ]%string.

Definition get {A} (own : gmap jsstring A) (k : jsstring) : PropRead A :=
  match own !! k with
  | Some a => Own a
  | None => if bool_decide (k ∈ objectPrototypeKeys) then Inherited k else Missing
  end.

(** [String(v)] for an inherited member, as V8 prints it. *)
Definition inheritedToString (name : jsstring) : jsstring :=
  if bool_decide (name = lit "__proto__") then lit "[object Object]"
  else if bool_decide (name = lit "constructor")
       then lit "function Object() { [native code] }"
       else lit "function " ++ name ++ lit "() { [native code] }".

(** [s.endsWith(p)] *)
Definition endsWith (p s : jsstring) : bool := startsWith (rev p) (rev s).

(** [s.includes(p)] *)
Fixpoint includes (p s : jsstring) : bool :=
  startsWith p s
  || match s with
     | [] => false
     | _ :: s' => includes p s'
     end.

(** The order of [Array.prototype.sort] without a comparator on strings:
    code unit by code unit, a proper prefix first. *)
Fixpoint leb (a b : jsstring) : bool :=
  match a, b with
  | [], _ => true
  | _ :: _, [] => false
  | x :: a', y :: b' => (x <? y)%N || ((x =? y)%N && leb a' b')
  end.

Fixpoint insertSorted (x : jsstring) (xs : list jsstring) : list jsstring :=
  match xs with
  | [] => [x]
  | y :: ys => if leb x y then x :: y :: ys else y :: insertSorted x ys
  end.

(** [xs.sort()] on an array of strings. *)
Definition sort (xs : list jsstring) : list jsstring :=
  fold_right insertSorted [] xs.

(** [url.replace(/\/$/, "")]: one slash at the very end is dropped. *)
Definition stripTrailingSlash (s : jsstring) : jsstring :=
  match rev s with
  | 47%N :: r => rev r
  | _ => s
  end.

End Js.

(** ** types.ts *)

Inductive AuditType := full | supply_chain | quick | custom_audit.
Inductive TriggerSource := cron | manual | post_install | ci.
Inductive FindingSeverity := critical | high | medium | low | info.
Inductive FindingStatus := st_open | st_acknowledged | st_remediated | st_accepted.
Inductive FindingSource := secureclaw | custom.
Inductive OWASPCategory :=
  ASI01 | ASI02 | ASI03 | ASI04 | ASI05 | ASI06 | ASI07 | ASI08 | ASI09 | ASI10.

#[export] Instance FindingSeverity_eq_dec : EqDecision FindingSeverity.
Proof. solve_decision. Defined.
#[export] Instance FindingSource_eq_dec : EqDecision FindingSource.
Proof. solve_decision. Defined.
#[export] Instance OWASPCategory_eq_dec : EqDecision OWASPCategory.
Proof. solve_decision. Defined.

(** The string a category code is at run time. *)
Definition code (c : OWASPCategory) : jsstring :=
  Js.lit match c with
         | ASI01 => "ASI01" | ASI02 => "ASI02" | ASI03 => "ASI03"
         | ASI04 => "ASI04" | ASI05 => "ASI05" | ASI06 => "ASI06"
         | ASI07 => "ASI07" | ASI08 => "ASI08" | ASI09 => "ASI09"
         | ASI10 => "ASI10"
         end.

Definition all_categories : list OWASPCategory :=
  [ASI01; ASI02; ASI03; ASI04; ASI05; ASI06; ASI07; ASI08; ASI09; ASI10].

Definition sourceString (s : FindingSource) : jsstring :=
  Js.lit match s with secureclaw => "secureclaw" | custom => "custom" end.

Definition OWASP_NAMES : gmap jsstring jsstring :=
  list_to_map (List.map (fun p => (code (fst p), Js.lit (snd p)))
    [ (ASI01, "Goal Hijack / Prompt Injection");
      (ASI02, "Sensitive Information Disclosure");
      (ASI03, "Misconfigured Secrets & PII Leakage");
      (ASI04, "Insecure Code Execution");
      (ASI05, "Model Denial of Service");
      (ASI06, "Cognitive File & Identity Tampering");
      (ASI07, "Supply Chain Compromise");
      (ASI08, "Insecure Tool Use");
      (ASI09, "Unsafe Output Handling");
      (ASI10, "Excessive Agency / Privilege Escalation") ]%string).

(** A value that can end up in [owaspCategory] at run time: a string, or a
    member inherited from [Object.prototype] picked up by a table read. *)
Inductive CategoryValue :=
  | VStr (s : jsstring)
  | VInherited (name : jsstring).

#[export] Instance CategoryValue_eq_dec : EqDecision CategoryValue.
Proof. solve_decision. Defined.

(** [String(v)], as a template string or [join] renders the value. *)
Definition categoryToString (v : CategoryValue) : jsstring :=
  match v with
  | VStr s => s
  | VInherited name => Js.inheritedToString name
  end.

(** Optional fields ([evidence?], [owaspMapping?], ...) are [option]s;
    [None] is [undefined]. *)
Record SecureClawFinding := {
  sc_id : jsstring;
  sc_name : jsstring;
  sc_category : option jsstring;
  sc_severity : FindingSeverity;
  sc_passed : bool;
  sc_evidence : option jsstring;
  sc_remediation : option jsstring;
  sc_owaspMapping : option jsstring;
  sc_module : option jsstring
}.

Record SecureClawOutput := {
  out_version : jsstring;
  out_timestamp : jsstring;
  out_hostname : jsstring;
  out_checksRun : Z;
  out_checksPassed : Z;
  out_checksFailed : Z;
  out_findings : list SecureClawFinding;
  out_riskScore : Z
}.

Record NormalizedFinding := {
  checkId : jsstring;
  checkName : jsstring;
  source : FindingSource;
  owaspCategory : CategoryValue;
  owaspName : Js.PropRead jsstring;
  category : jsstring;
  severity : FindingSeverity;
  passed : bool;
  evidence : option jsstring;
  remediation : option jsstring
}.

Record CustomCheckResult := {
  cc_checkId : jsstring;
  cc_checkName : jsstring;
  cc_category : jsstring;
  cc_owaspCategory : OWASPCategory;
  cc_passed : bool;
  cc_severity : FindingSeverity;
  cc_evidence : option jsstring;
  cc_remediation : option jsstring
}.

Record RawAuditOutput := {
  raw_secureclaw : option SecureClawOutput;
  raw_customChecks : list CustomCheckResult;
  raw_errors : list jsstring
}.

Record AuditDiff := {
  auditId : jsstring;
  previousAuditId : option jsstring;
  newFindings : list NormalizedFinding;
  resolvedFindings : list NormalizedFinding;
  persistingFindings : list NormalizedFinding;
  riskScoreDelta : Z;
  newCriticals : list NormalizedFinding
}.

Record AuditSummary := {
  sum_type : AuditType;
  sum_triggeredBy : TriggerSource;
  secureclawVersion : jsstring;
  checksRun : Z;
  checksPassed : Z;
  checksFailed : Z;
  criticalCount : Z;
  highCount : Z;
  mediumCount : Z;
  lowCount : Z;
  infoCount : Z;
  hostRiskScore : Z;
  newFindingsCount : Z;
  resolvedFindingsCount : Z;
  sum_riskScoreDelta : Z;
  startedAt : Z;
  finishedAt : Z;
  durationMs : Z
}.

(** ** parser.ts *)

Definition SECURECLAW_OWASP_MAP : gmap jsstring OWASPCategory :=
  list_to_map (List.map (fun p => (Js.lit (fst p), snd p))
  [ ("SC-001", ASI01); ("SC-002", ASI01); ("SC-003", ASI01);
    ("SC-004", ASI01); ("SC-005", ASI01); ("SC-010", ASI02);
    ("SC-011", ASI02); ("SC-012", ASI02); ("SC-013", ASI02);
    ("SC-020", ASI03); ("SC-021", ASI03); ("SC-022", ASI03);
    ("SC-023", ASI03); ("SC-024", ASI03); ("SC-025", ASI03);
    ("SC-030", ASI04); ("SC-031", ASI04); ("SC-032", ASI04);
    ("SC-035", ASI05); ("SC-036", ASI05); ("SC-040", ASI06);
    ("SC-041", ASI06); ("SC-042", ASI06); ("SC-043", ASI06);
    ("SC-044", ASI06); ("SC-045", ASI06); ("SC-050", ASI07);
    ("SC-051", ASI07); ("SC-052", ASI07); ("SC-053", ASI07);
    ("SC-054", ASI07); ("SC-060", ASI08); ("SC-061", ASI08);
    ("SC-062", ASI08); ("SC-070", ASI09); ("SC-071", ASI09);
    ("SC-080", ASI10); ("SC-081", ASI10); ("SC-082", ASI10) ]%string).

Definition CATEGORY_OWASP_MAP : gmap jsstring OWASPCategory :=
  list_to_map (List.map (fun p => (Js.lit (fst p), snd p))
  [ ("prompt_injection", ASI01); ("goal_hijack", ASI01); ("injection", ASI01);
    ("information_disclosure", ASI02); ("data_leakage", ASI02); ("pii_exposure", ASI02);
    ("secrets_exposure", ASI03); ("credential_exposure", ASI03); ("file_permissions", ASI06);
    ("config_exposure", ASI03); ("api_key_exposure", ASI03); ("pii_leakage", ASI03);
    ("code_execution", ASI04); ("rce", ASI04); ("shell_injection", ASI04);
    ("dos", ASI05); ("resource_exhaustion", ASI05); ("cognitive_file", ASI06);
    ("identity_tampering", ASI06); ("soul_file", ASI06); ("memory_file", ASI06);
    ("supply_chain", ASI07); ("clawhavoc", ASI07); ("skill_validation", ASI07);
    ("tool_use", ASI08); ("tool_abuse", ASI08); ("unsafe_output", ASI09);
    ("xss", ASI09); ("privilege_escalation", ASI10); ("excessive_agency", ASI10);
    ("gateway_config", ASI03); ("gateway_exposure", ASI03); ("auth", ASI10);
    ("cron_injection", ASI01) ]%string).

Definition EVIDENCE_MAX_CHARS : nat := 500.

(** The suffix […[truncated]]; the ellipsis is the single unit U+2026. *)
Definition truncationMarker : jsstring := 8230%N :: Js.lit "[truncated]".

Definition truncateEvidence (evidence : option jsstring) : option jsstring :=
  match evidence with
  | None => None
  | Some e =>
      if negb (Js.truthy e) then None
      else if (length e <=? EVIDENCE_MAX_CHARS)%nat then Some e
      else Some (Js.slice0 EVIDENCE_MAX_CHARS e ++ truncationMarker)
  end.

(** What a truthy table read returns to the caller. *)
Definition readValue (r : Js.PropRead OWASPCategory) : option CategoryValue :=
  match r with
  | Js.Own c => Some (VStr (code c))
  | Js.Inherited name => Some (VInherited name)
  | Js.Missing => None
  end.

(** The [owaspMapping] step: taken when the field is a non-empty string
    whose upper-cased, whitespace-free form starts with [ASI] and has at
    most five code units. *)
Definition explicitMapping (finding : SecureClawFinding) : option CategoryValue :=
  match sc_owaspMapping finding with
  | None => None
  | Some m =>
      if Js.truthy m then
        let normalized := Js.removeWhiteSpace (Js.toUpperCase m) in
        if Js.startsWith (Js.lit "ASI") normalized && (length normalized <=? 5)%nat
        then Some (VStr normalized)
        else None
      else None
  end.

Definition categoryKey (finding : SecureClawFinding) : jsstring :=
  Js.dashSpaceToUnderscore (Js.toLowerCase (default [] (sc_category finding))).

Definition inferOWASPFromSecureClawFinding (finding : SecureClawFinding)
  : CategoryValue :=
  match readValue (Js.get SECURECLAW_OWASP_MAP (sc_id finding)) with
  | Some fromId => fromId
  | None =>
      match explicitMapping finding with
      | Some normalized => normalized
      | None =>
          match readValue (Js.get CATEGORY_OWASP_MAP (categoryKey finding)) with
          | Some fromCategory => fromCategory
          | None => VStr (code ASI03)
          end
      end
  end.

(** [OWASP_NAMES[owaspCategory]]: the key is the value rendered as a
    string. *)
Definition owaspNameOf (v : CategoryValue) : Js.PropRead jsstring :=
  Js.get OWASP_NAMES (categoryToString v).

Definition normalizeSecureClawFinding (finding : SecureClawFinding)
  : NormalizedFinding :=
  let owaspCategory := inferOWASPFromSecureClawFinding finding in
  {| checkId := sc_id finding;
     checkName := sc_name finding;
     source := secureclaw;
     owaspCategory := owaspCategory;
     owaspName := owaspNameOf owaspCategory;
     category := default (Js.lit "general") (sc_category finding);
     severity := sc_severity finding;
     passed := sc_passed finding;
     evidence := truncateEvidence (sc_evidence finding);
     remediation := sc_remediation finding |}.

Definition normalizeCustomCheckResult (result : CustomCheckResult)
  : NormalizedFinding :=
  let owaspCategory := VStr (code (cc_owaspCategory result)) in
  {| checkId := cc_checkId result;
     checkName := cc_checkName result;
     source := custom;
     owaspCategory := owaspCategory;
     owaspName := owaspNameOf owaspCategory;
     category := cc_category result;
     severity := cc_severity result;
     passed := cc_passed result;
     evidence := truncateEvidence (cc_evidence result);
     remediation := cc_remediation result |}.

(** [findings.filter((f) => !f.passed)] *)
Definition failedFindings (findings : list NormalizedFinding)
  : list NormalizedFinding :=
  List.filter (fun f => negb (passed f)) findings.

(** [xs.filter((f) => f.severity === s).length] *)
Definition countSeverity (s : FindingSeverity) (xs : list NormalizedFinding) : Z :=
  Z.of_nat (length (List.filter (fun f => bool_decide (severity f = s)) xs)).

Definition computeRiskScore (findings : list NormalizedFinding) : Z :=
  let failed := List.filter (fun f => negb (passed f)) findings in
  let score :=
    countSeverity critical failed * 25 +
    countSeverity high failed * 10 +
    countSeverity medium failed * 3 +
    countSeverity low failed * 1 in
  Z.min 100 score.

Record SeverityCounts := {
  n_critical : Z; n_high : Z; n_medium : Z; n_low : Z; n_info : Z
}.

Definition countBySeverity (findings : list NormalizedFinding) : SeverityCounts :=
  let failed := List.filter (fun f => negb (passed f)) findings in
  {| n_critical := countSeverity critical failed;
     n_high := countSeverity high failed;
     n_medium := countSeverity medium failed;
     n_low := countSeverity low failed;
     n_info := countSeverity info failed |}.

(** [ResultParser.parse]: scanner findings first, then the custom checks,
    each pushed in producer order. *)
Definition parse (raw : RawAuditOutput) : list NormalizedFinding :=
  let findings :=
    match raw_secureclaw raw with
    | Some sc => List.map normalizeSecureClawFinding (out_findings sc)
    | None => []
    end in
  findings ++ List.map normalizeCustomCheckResult (raw_customChecks raw).

Definition getTotalChecksRun (raw : RawAuditOutput) : Z :=
  let scChecks := match raw_secureclaw raw with
                  | Some sc => out_checksRun sc | None => 0 end in
  let customChecks := Z.of_nat (length (raw_customChecks raw)) in
  scChecks + customChecks.

Definition getTotalChecksPassed (raw : RawAuditOutput) : Z :=
  let scPassed := match raw_secureclaw raw with
                  | Some sc => out_checksPassed sc | None => 0 end in
  let customPassed :=
    Z.of_nat (length (List.filter (fun c => cc_passed c) (raw_customChecks raw))) in
  scPassed + customPassed.

(** [groupByOWASP]: every finding is pushed on the group its category
    names.  Reading a group that the literal does not define gives
    [undefined] or an inherited member, neither of which has a [push] to
    call, and the call throws: the result is then [None]. *)
Definition groupByOWASP (findings : list NormalizedFinding)
  : option (gmap jsstring (list NormalizedFinding)) :=
  let groups : gmap jsstring (list NormalizedFinding) :=
    list_to_map (List.map (fun c => (code c, [])) all_categories) in
  fold_left
    (fun acc finding =>
       match acc with
       | None => None
       | Some groups =>
           let key := categoryToString (owaspCategory finding) in
           match Js.get groups key with
           | Js.Own group => Some (<[key := group ++ [finding]]> groups)
           | _ => None
           end
       end)
    findings (Some groups).

(** ** differ.ts *)

Definition makeFindingKey (f : NormalizedFinding) : jsstring :=
  sourceString (source f) ++ Js.lit "::" ++ checkId f.

Record PreviousAuditFindings := {
  prev_auditId : jsstring;
  prev_findings : list NormalizedFinding;
  prev_hostRiskScore : Z
}.

(** [new Set(xs.map(makeFindingKey))] and [set.has(key)] *)
Definition keySet (xs : list NormalizedFinding) : gset jsstring :=
  list_to_set (List.map makeFindingKey xs).

Definition has (s : gset jsstring) (key : jsstring) : bool :=
  bool_decide (key ∈ s).

(** The test both loops make on a finding. *)
Definition inKeys (keys : gset jsstring) (f : NormalizedFinding) : bool :=
  has keys (makeFindingKey f).

(** One turn of the loop over [currentFailed]: the finding is pushed on
    [newFindings] or on [persistingFindings]. *)
Definition classifyStep (previousKeys : gset jsstring)
    (acc : list NormalizedFinding * list NormalizedFinding)
    (finding : NormalizedFinding)
  : list NormalizedFinding * list NormalizedFinding :=
  let key := makeFindingKey finding in
  if negb (has previousKeys key)
  then (fst acc ++ [finding], snd acc)
  else (fst acc, snd acc ++ [finding]).

(** One turn of the loop over [previousFailed]. *)
Definition resolveStep (currentKeys : gset jsstring)
    (acc : list NormalizedFinding) (finding : NormalizedFinding)
  : list NormalizedFinding :=
  let key := makeFindingKey finding in
  if negb (has currentKeys key) then acc ++ [finding] else acc.

Definition compute (currentAuditId : jsstring)
    (currentFindings : list NormalizedFinding) (currentRiskScore : Z)
    (previous : option PreviousAuditFindings) : AuditDiff :=
  let currentFailed := List.filter (fun f => negb (passed f)) currentFindings in
  match previous with
  | None =>
      let criticals :=
        List.filter (fun f => bool_decide (severity f = critical)) currentFailed in
      {| auditId := currentAuditId;
         previousAuditId := None;
         newFindings := currentFailed;
         resolvedFindings := [];
         persistingFindings := [];
         riskScoreDelta := currentRiskScore;
         newCriticals := criticals |}
  | Some previous =>
      let previousFailed :=
        List.filter (fun f => negb (passed f)) (prev_findings previous) in
      let currentKeys := keySet currentFailed in
      let previousKeys := keySet previousFailed in
      let buckets := fold_left (classifyStep previousKeys) currentFailed ([], []) in
      let newFindings := fst buckets in
      let persistingFindings := snd buckets in
      let resolvedFindings := fold_left (resolveStep currentKeys) previousFailed [] in
      let newCriticals :=
        List.filter (fun f => bool_decide (severity f = critical)) newFindings in
      let riskScoreDelta := currentRiskScore - prev_hostRiskScore previous in
      {| auditId := currentAuditId;
         previousAuditId := Some (prev_auditId previous);
         newFindings := newFindings;
         resolvedFindings := resolvedFindings;
         persistingFindings := persistingFindings;
         riskScoreDelta := riskScoreDelta;
         newCriticals := newCriticals |}
  end.

(** ** alerter.ts *)

Inductive EventType :=
  | new_critical_finding | clawhavoc_match | cognitive_file_tampered
  | credential_exposure_detected | gateway_exposure_detected | new_critical_vuln.

Inductive EventSource := event_secureclaw | event_augustus.

(** The body posted to [/api/security-events]. *)
Record SecurityEvent := {
  eventType : EventType;
  event_severity : FindingSeverity;
  event_source : EventSource;
  sourceId : option jsstring;
  message : jsstring;
  acknowledged : bool;
  createdAt : Z
}.

(** [[...new Set(xs)]]: the distinct values in order of first occurrence. *)
Definition distinct {A} `{EqDecision A} (xs : list A) : list A :=
  fold_left (fun seen x => if bool_decide (x ∈ seen) then seen else seen ++ [x]) xs [].

Definition buildAlertMessage (criticals : list NormalizedFinding)
    (auditId : jsstring) : jsstring :=
  let categories :=
    Js.join (Js.lit ", ")
      (List.map categoryToString (distinct (List.map owaspCategory criticals))) in
  let checkNames := Js.join (Js.lit ", ") (List.map checkName criticals) in
  ([55357; 57000]%N ++ Js.lit " " ++ Js.ofNat (length criticals)
     ++ Js.lit " new CRITICAL finding"
     ++ (if negb (length criticals =? 1)%nat then Js.lit "s" else []) ++ Js.lit " ")
  ++ (Js.lit "in audit " ++ auditId ++ Js.lit " " ++ [8212%N] ++ Js.lit " ")
  ++ (Js.lit "Categories: " ++ categories ++ Js.lit " " ++ [8212%N] ++ Js.lit " ")
  ++ (Js.lit "Checks: " ++ Js.slice0 200 checkNames).

(** [alertOnCriticals], as the list of events it posts.  A failed post is
    caught and logged, so the call itself always completes. *)
Definition alertOnCriticals (now : Z) (diff : AuditDiff) : list SecurityEvent :=
  if (length (newCriticals diff) =? 0)%nat then []
  else
    let message := buildAlertMessage (newCriticals diff) (auditId diff) in
    [ {| eventType := new_critical_finding;
         event_severity := critical;
         event_source := event_secureclaw;
         sourceId := Some (auditId diff);
         message := message;
         acknowledged := false;
         createdAt := now |} ].

(** ** reporter.ts *)

Inductive Result (A : Type) : Type :=
  | Ok (a : A)
  | Err (msg : jsstring).
Arguments Ok {A} a.
Arguments Err {A} msg.

(** A finding spread into an upsert body with the five added fields. *)
Record UpsertFindingBody := {
  body_finding : NormalizedFinding;
  body_auditId : jsstring;
  isNew : bool;
  status : FindingStatus;
  firstSeenAt : Z;
  lastSeenAt : Z
}.

Definition BATCH_SIZE : nat := 20.

Definition findingBodies (auditId : jsstring) (findings : list NormalizedFinding)
    (diff : AuditDiff) (now : Z) : list UpsertFindingBody :=
  let newCheckIds : gset jsstring :=
    list_to_set (List.map checkId (newFindings diff)) in
  List.map
    (fun f => {| body_finding := f;
                 body_auditId := auditId;
                 isNew := has newCheckIds (checkId f);
                 status := st_open;
                 firstSeenAt := now;
                 lastSeenAt := now |})
    (List.filter (fun f => negb (passed f)) findings).

(** The batching loop [for (i = 0; i < n; i += BATCH_SIZE)], posting
    [slice(i, i + BATCH_SIZE)]; a rejected post throws out of the loop.
    The first component lists the batches that were sent.  [fuel] bounds
    the number of turns. *)
Fixpoint postBatches (fuel : nat)
    (post : list UpsertFindingBody -> Result (list jsstring))
    (bodies : list UpsertFindingBody) (i : nat) (allIds : list jsstring)
  : list (list UpsertFindingBody) * Result (list jsstring) :=
  match fuel with
  | O => ([], Ok allIds)
  | S fuel' =>
      if (i <? length bodies)%nat then
        let batch := firstn BATCH_SIZE (skipn i bodies) in
        match post batch with
        | Ok findingIds =>
            let rest := postBatches fuel' post bodies (i + BATCH_SIZE) (allIds ++ findingIds) in
            (batch :: fst rest, snd rest)
        | Err msg => ([batch], Err msg)
        end
      else ([], Ok allIds)
  end.

Definition upsertFindings
    (post : list UpsertFindingBody -> Result (list jsstring)) (now : Z)
    (auditId : jsstring) (findings : list NormalizedFinding) (diff : AuditDiff)
  : list (list UpsertFindingBody) * Result (list jsstring) :=
  let bodies := findingBodies auditId findings diff now in
  postBatches (S (length bodies)) post bodies 0 [].

(** ** runner.ts (the stand-in output) and index.ts *)

Record OrchestratorConfig := {
  cfg_type : AuditType;
  cfg_modules : option (list jsstring);
  cfg_triggeredBy : TriggerSource;
  cfg_dryRun : bool;
  cfg_verbose : bool;
  cfg_convexUrl : jsstring;
  cfg_apiKey : jsstring
}.

(** [mockSecureClawOutput]: what the runner uses for the scanner in a dry
    run; the timestamp and host name come from the environment. *)
Definition mockSecureClawOutput (timestamp hostname : jsstring) (type : AuditType)
  : SecureClawOutput :=
  {| out_version := Js.lit "2.1";
     out_timestamp := timestamp;
     out_hostname := hostname;
     out_checksRun := match type with quick => 12 | _ => 55 end;
     out_checksPassed := match type with quick => 12 | _ => 50 end;
     out_checksFailed := 0;
     out_findings := [];
     out_riskScore := 0 |}.

(** What the collaborators answer during one run: the scanner version, the
    latest completed audit ([getPreviousAuditFindings] turns every failure
    into [null]), the runner's raw output, the three persistence calls and
    the clock readings. *)
Record World := {
  w_scVersion : jsstring;
  w_previous : option PreviousAuditFindings;
  w_raw : RawAuditOutput;
  w_createAudit : AuditSummary -> Result jsstring;
  w_postFindings : list UpsertFindingBody -> Result (list jsstring);
  w_completeAudit : jsstring -> AuditSummary -> Result unit;
  w_startedAt : Z;
  w_finishedAt : Z;
  w_upsertNow : Z;
  w_alertNow : Z
}.

Record OrchestratorResult := {
  res_auditId : jsstring;
  res_summary : AuditSummary;
  res_findings : list NormalizedFinding;
  res_diff : AuditDiff;
  res_errors : list jsstring
}.

(** What one run sent out: finding batches and alert events. *)
Record Sent := {
  sent_batches : list (list UpsertFindingBody);
  sent_events : list SecurityEvent
}.

(** [diff.auditId = auditId] *)
Definition setAuditId (diff : AuditDiff) (id : jsstring) : AuditDiff :=
  {| auditId := id;
     previousAuditId := previousAuditId diff;
     newFindings := newFindings diff;
     resolvedFindings := resolvedFindings diff;
     persistingFindings := persistingFindings diff;
     riskScoreDelta := riskScoreDelta diff;
     newCriticals := newCriticals diff |}.

(** Steps 4 and 5 of [runAudit]: the summary of a raw output. *)
Definition summarize (config : OrchestratorConfig) (w : World)
    (findings : list NormalizedFinding) (diff : AuditDiff) : AuditSummary :=
  let rawOutput := w_raw w in
  let bySeverity := countBySeverity findings in
  let hostRiskScore := computeRiskScore findings in
  {| sum_type := cfg_type config;
     sum_triggeredBy := cfg_triggeredBy config;
     secureclawVersion := w_scVersion w;
     checksRun := getTotalChecksRun rawOutput;
     checksPassed := getTotalChecksPassed rawOutput;
     checksFailed := getTotalChecksRun rawOutput - getTotalChecksPassed rawOutput;
     criticalCount := n_critical bySeverity;
     highCount := n_high bySeverity;
     mediumCount := n_medium bySeverity;
     lowCount := n_low bySeverity;
     infoCount := n_info bySeverity;
     hostRiskScore := hostRiskScore;
     newFindingsCount := Z.of_nat (length (newFindings diff));
     resolvedFindingsCount := Z.of_nat (length (resolvedFindings diff));
     sum_riskScoreDelta := riskScoreDelta diff;
     startedAt := w_startedAt w;
     finishedAt := w_finishedAt w;
     durationMs := w_finishedAt w - w_startedAt w |}.

(** Step 6 and 7, the guarded block: create, upsert, complete, alert.  The
    result is the audit id and diff as the block left them, what was sent,
    and the message of the error that ended the block, if any. *)
Definition pushResults (w : World) (summary : AuditSummary)
    (findings : list NormalizedFinding) (diff : AuditDiff)
  : jsstring * AuditDiff * Sent * option jsstring :=
  match w_createAudit w summary with
  | Err msg =>
      (Js.lit "dry-run", diff, {| sent_batches := []; sent_events := [] |}, Some msg)
  | Ok auditId =>
      let diff := setAuditId diff auditId in
      let upserted :=
        upsertFindings (w_postFindings w) (w_upsertNow w) auditId findings diff in
      match snd upserted with
      | Err msg =>
          (auditId, diff,
           {| sent_batches := fst upserted; sent_events := [] |}, Some msg)
      | Ok findingIds =>
          match w_completeAudit w auditId summary with
          | Err msg =>
              (auditId, diff,
               {| sent_batches := fst upserted; sent_events := [] |}, Some msg)
          | Ok _ =>
              (auditId, diff,
               {| sent_batches := fst upserted;
                  sent_events := alertOnCriticals (w_alertNow w) diff |}, None)
          end
      end
  end.

Definition runAudit (config : OrchestratorConfig) (w : World)
  : OrchestratorResult * Sent :=
  let previousAudit := if negb (cfg_dryRun config) then w_previous w else None in
  let rawOutput := w_raw w in
  let errors := raw_errors rawOutput in
  let findings := parse rawOutput in
  let hostRiskScore := computeRiskScore findings in
  let diff := compute (Js.lit "pending") findings hostRiskScore previousAudit in
  let summary := summarize config w findings diff in
  if negb (cfg_dryRun config) then
    match pushResults w summary findings diff with
    | (auditId, diff, sent, failure) =>
        let errors :=
          match failure with
          | Some msg =>
              errors ++ [Js.lit "Failed to push results to Convex: "
                           ++ Js.lit "Error: " ++ msg]
          | None => errors
          end in
        ({| res_auditId := auditId; res_summary := summary;
            res_findings := findings; res_diff := diff;
            res_errors := errors |}, sent)
    end
  else
    ({| res_auditId := Js.lit "dry-run"; res_summary := summary;
        res_findings := findings; res_diff := diff; res_errors := errors |},
     {| sent_batches := []; sent_events := [] |}).

(** ** runner.ts, the child processes *)

(** What [runProcess] resolves to. *)
Record ProcessResult := {
  proc_stdout : jsstring;
  proc_stderr : jsstring;
  proc_code : nat
}.

Definition buildSecureClawArgs (config : OrchestratorConfig) : list jsstring :=
  let base := List.map Js.lit ["secureclaw"; "audit"; "--output"; "json"]%string in
  match cfg_type config with
  | full => base ++ [Js.lit "--full"]
  | supply_chain => base ++ [Js.lit "--modules"; Js.lit "supply-chain"]
  | quick => base ++ [Js.lit "--modules"; Js.lit "permissions,gateway,config"]
  | custom_audit =>
      match cfg_modules config with
      | Some modules =>
          if (0 <? length modules)%nat
          then base ++ [Js.lit "--modules"; Js.join (Js.lit ",") modules]
          else base
      | None => base
      end
  end.

(** The recovery loop of [runSecureClaw], from the last line to the first:
    the first trimmed line that starts with a brace and parses is taken.
    The argument is the list of lines, last line first. *)
Fixpoint lastJsonLine {A} (parseJson : jsstring -> option A)
    (linesFromEnd : list jsstring) : option A :=
  match linesFromEnd with
  | [] => None
  | l :: rest =>
      let line := Js.trim l in
      if Js.startsWith (Js.lit "{") line then
        match parseJson line with
        | Some parsed => Some parsed
        | None => lastJsonLine parseJson rest
        end
      else lastJsonLine parseJson rest
  end.


(** What [readdir] on the checks directory gives. *)
Inductive Readdir :=
  | DirListing (files : list jsstring)
  | DirError (err : jsstring).

(** The scripts [runCustomChecks] launches. *)
Definition selectScripts (config : OrchestratorConfig) (files : list jsstring)
  : list jsstring :=
  let scripts := Js.sort (List.filter (Js.endsWith (Js.lit ".sh")) files) in
  match cfg_type config with
  | supply_chain =>
      List.filter
        (fun s => Js.includes (Js.lit "supply-chain") s || Js.includes (Js.lit "git") s)
        scripts
  | _ => scripts
  end.

(** The body of the callback for one script once its process resolved:
    a result to push on [results] or a message to push on [errors]. *)
Definition checkOutcome (parseJson : jsstring -> option CustomCheckResult)
    (script : jsstring) (r : ProcessResult) : CustomCheckResult + jsstring :=
  if negb (proc_code r =? 0)%nat then
    inr (Js.lit "Check script " ++ script ++ Js.lit " exited with code "
           ++ Js.ofNat (proc_code r) ++ Js.lit ": " ++ Js.slice0 200 (proc_stderr r))
  else
    let jsonOutput := Js.trim (proc_stdout r) in
    if negb (Js.truthy jsonOutput) then
      inr (Js.lit "Check script " ++ script ++ Js.lit " produced no output")
    else
      match parseJson jsonOutput with
      | Some parsed => inl parsed
      | None =>
          inr (Js.lit "Check script " ++ script ++ Js.lit " produced invalid JSON: "
                 ++ Js.slice0 200 jsonOutput)
      end.

(** One callback completing: its outcome is pushed on one of the two
    arrays. *)
Definition pushOutcome (parseJson : jsstring -> option CustomCheckResult)
    (acc : list CustomCheckResult * list jsstring)
    (done : jsstring * ProcessResult)
  : list CustomCheckResult * list jsstring :=
  match checkOutcome parseJson (fst done) (snd done) with
  | inl parsed => (fst acc ++ [parsed], snd acc)
  | inr msg => (fst acc, snd acc ++ [msg])
  end.

(** [runCustomChecks].  The callbacks run concurrently and push as they
    complete: [completed] lists the launched scripts with what their
    process resolved to, in completion order.  In a dry run every callback
    returns at once and nothing is pushed. *)
Definition runCustomChecks (parseJson : jsstring -> option CustomCheckResult)
    (checksDir : jsstring) (config : OrchestratorConfig) (dir : Readdir)
    (completed : list (jsstring * ProcessResult))
  : list CustomCheckResult * list jsstring :=
  match dir with
  | DirError err =>
      ([], [Js.lit "Cannot read checks directory " ++ checksDir ++ Js.lit ": " ++ err])
  | DirListing files =>
      if cfg_dryRun config then ([], [])
      else fold_left (pushOutcome parseJson) completed ([], [])
  end.

(** [AuditRunner.run] *)
Definition run (upstreamResult : option SecureClawOutput * list jsstring)
    (customResults : list CustomCheckResult * list jsstring) : RawAuditOutput :=
  {| raw_secureclaw := fst upstreamResult;
     raw_customChecks := fst customResults;
     raw_errors := snd upstreamResult ++ snd customResults |}.


(** [isSecureClawAvailable] *)
Definition isSecureClawAvailable (r : ProcessResult) : bool :=
  (proc_code r =? 0)%nat.

(** ** bin/audit.ts *)

(** The parsed command line, defaults applied, and the environment. *)
Record CliValues := {
  v_help : bool;
  v_type : jsstring;
  v_triggeredBy : jsstring;
  v_modules : option jsstring;
  v_dryRun : bool;
  v_verbose : bool
}.

Record ProcessEnv := {
  CONVEX_URL : option jsstring;
  CONVEX_SITE_URL : option jsstring;
  CLAW_API_KEY : option jsstring
}.

Definition parseAuditType (s : jsstring) : option AuditType :=
  if bool_decide (s = Js.lit "full") then Some full
  else if bool_decide (s = Js.lit "quick") then Some quick
  else if bool_decide (s = Js.lit "supply-chain") then Some supply_chain
  else if bool_decide (s = Js.lit "custom") then Some custom_audit
  else None.

Definition parseTriggerSource (s : jsstring) : option TriggerSource :=
  if bool_decide (s = Js.lit "cron") then Some cron
  else if bool_decide (s = Js.lit "manual") then Some manual
  else if bool_decide (s = Js.lit "post-install") then Some post_install
  else if bool_decide (s = Js.lit "ci") then Some ci
  else None.

(** [a ?? b] *)
Definition nullish {A} (a : option A) (b : A) : A :=
  match a with Some x => x | None => b end.

(** [a || b] on strings *)
Definition orElse (a b : jsstring) : jsstring := if Js.truthy a then a else b.

(** How [await runAudit(...)] ends inside the [try] of [main]. *)
Inductive RunOutcome :=
  | Returned (result : OrchestratorResult)
  | Threw (err : jsstring).

(** The status the process ends with after the audit ran.  A non-empty
    [errors] list is printed to stderr and nothing else; falling off the
    end of [main] leaves the status at 0. *)
Definition exitAfterRun (dryRun : bool) (outcome : RunOutcome) : Z :=
  match outcome with
  | Threw _ => 1
  | Returned result =>
      if (0 <? length (newCriticals (res_diff result)))%nat && negb dryRun then 2
      else 0
  end.

(** [main], as the exit status of the process; [run] is what awaiting
    [runAudit] on the built configuration gives. *)
Definition main (run : OrchestratorConfig -> RunOutcome)
    (values : CliValues) (env : ProcessEnv) : Z :=
  if v_help values then 0
  else
    match parseAuditType (v_type values) with
    | None => 1
    | Some auditType =>
        match parseTriggerSource (v_triggeredBy values) with
        | None => 1
        | Some triggeredBy =>
            let modules :=
              match v_modules values with
              | Some modulesRaw =>
                  if Js.truthy modulesRaw
                  then Some (List.filter Js.truthy
                               (List.map Js.trim (Js.split 44%N modulesRaw)))
                  else None
              | None => None
              end in
            let dryRun := v_dryRun values in
            let verbose := v_verbose values in
            let convexUrl :=
              nullish (CONVEX_URL env) (nullish (CONVEX_SITE_URL env) []) in
            let apiKey := nullish (CLAW_API_KEY env) [] in
            if negb dryRun && negb (Js.truthy convexUrl) then 1
            else if negb dryRun && negb (Js.truthy apiKey) then 1
            else
              exitAfterRun dryRun
                (run {| cfg_type := auditType;
                        cfg_triggeredBy := triggeredBy;
                        cfg_modules := modules;
                        cfg_dryRun := dryRun;
                        cfg_verbose := verbose;
                        cfg_convexUrl := orElse convexUrl (Js.lit "http://localhost:3000");
                        cfg_apiKey := orElse apiKey (Js.lit "dry-run-key") |})
        end
    end.

(** The [--modules] chain of the command line:
    [split(",").map((m) => m.trim()).filter(Boolean)]. *)
Definition parseModules (modulesRaw : jsstring) : list jsstring :=
  List.filter Js.truthy (List.map Js.trim (Js.split 44%N modulesRaw)).

(** ** Notions the properties are stated with *)

(** The scorer as the specification words it: the weight of a severity,
    and the clamped sum of the weights of the failing findings. *)
Definition weight (s : FindingSeverity) : Z :=
  match s with
  | critical => 25 | high => 10 | medium => 3 | low => 1 | info => 0
  end.

Definition sumZ (xs : list Z) : Z := fold_right Z.add 0 xs.

Definition clampedWeightSum (findings : list NormalizedFinding) : Z :=
  Z.min 100 (sumZ (List.map (fun f => weight (severity f)) (failedFindings findings))).

(** Recounting over a finding list: the failing findings of a severity,
    and the findings that passed. *)
Definition failingWith (s : FindingSeverity) (findings : list NormalizedFinding) : Z :=
  Z.of_nat (length (List.filter
                      (fun f => negb (passed f) && bool_decide (severity f = s))
                      findings)).

Definition passedCount (findings : list NormalizedFinding) : Z :=
  Z.of_nat (length (List.filter passed findings)).

(** The scanner's own counters agree with the findings it lists. *)
Definition scannerConsistent (raw : RawAuditOutput) : Prop :=
  match raw_secureclaw raw with
  | None => True
  | Some sc =>
      out_checksRun sc = Z.of_nat (length (out_findings sc))
      /\ out_checksPassed sc
         = Z.of_nat (length (List.filter sc_passed (out_findings sc)))
  end.

(** [sub] occurs in [s] as a run of consecutive code units. *)
Definition occursIn (sub s : jsstring) : Prop :=
  exists before after, s = before ++ sub ++ after.

(** What the differ can see of a finding: its two key fields and whether
    it failed.  The key is a function of the first two. *)
Definition identity (f : NormalizedFinding) : FindingSource * jsstring * bool :=
  (source f, checkId f, passed f).

(** Some failing finding of the previous run has the key of [f]. *)
Definition sameKeyFailing (p : PreviousAuditFindings) (f : NormalizedFinding) : Prop :=
  exists g, In g (prev_findings p) /\ passed g = false
            /\ source g = source f /\ checkId g = checkId f.

Definition keyOfIdentity (i : FindingSource * jsstring * bool) : jsstring :=
  sourceString (fst (fst i)) ++ Js.lit "::" ++ snd (fst i).

Definition previousIdentity (previous : option PreviousAuditFindings)
  : option (list (FindingSource * jsstring * bool)) :=
  option_map (fun p => List.map identity (prev_findings p)) previous.

(** A run as the next run sees it. *)
Definition asPrevious (id : jsstring) (findings : list NormalizedFinding) (score : Z)
  : PreviousAuditFindings :=
  {| prev_auditId := id; prev_findings := findings; prev_hostRiskScore := score |}.

(** A failing finding of [xs] has the key of [f]. *)
Definition keyFailsIn (xs : list NormalizedFinding) (f : NormalizedFinding) : Prop :=
  exists g, In g xs /\ passed g = false
            /\ source g = source f /\ checkId g = checkId f.

(** The groups while the loop of [groupByOWASP] runs: one group per code,
    holding the findings of that category seen so far, and no other key. *)
Definition groupsOf (seen : list NormalizedFinding)
    (groups : gmap jsstring (list NormalizedFinding)) : Prop :=
  (forall c, groups !! code c
             = Some (List.filter
                       (fun f => bool_decide (owaspCategory f = VStr (code c))) seen))
  /\ (forall k, (forall c, k <> code c) -> groups !! k = None).

(** One turn of the loop of [groupByOWASP], and the groups it starts
    from. *)
Definition groupStep (acc : option (gmap jsstring (list NormalizedFinding)))
    (finding : NormalizedFinding) : option (gmap jsstring (list NormalizedFinding)) :=
  match acc with
  | None => None
  | Some groups =>
      let key := categoryToString (owaspCategory finding) in
      match Js.get groups key with
      | Js.Own group => Some (<[key := group ++ [finding]]> groups)
      | _ => None
      end
  end.

Definition emptyGroups : gmap jsstring (list NormalizedFinding) :=
  list_to_map (List.map (fun c => (code c, [])) all_categories).

(** What a post answered, as a list of ids ([[]] for a rejected post). *)
Definition idsOf (r : Result (list jsstring)) : list jsstring :=
  match r with Ok ids => ids | Err _ => [] end.

Definition accepted {A} (r : Result A) : Prop := exists a, r = Ok a.

(** The first diff of a run, before an audit id is known, and the summary
    built from it. *)
Definition pendingDiff (config : OrchestratorConfig) (w : World) : AuditDiff :=
  compute (Js.lit "pending") (parse (w_raw w)) (computeRiskScore (parse (w_raw w)))
    (if negb (cfg_dryRun config) then w_previous w else None).

Definition summaryOf (config : OrchestratorConfig) (w : World) : AuditSummary :=
  summarize config w (parse (w_raw w)) (pendingDiff config w).

(** Two worlds that differ at most in what the persistence calls answer. *)
Definition sameInputs (w w' : World) : Prop :=
  w_scVersion w = w_scVersion w' /\ w_previous w = w_previous w'
  /\ w_raw w = w_raw w' /\ w_startedAt w = w_startedAt w'
  /\ w_finishedAt w = w_finishedAt w'.

(** The configuration [main] hands to [runAudit]. *)
Definition cliConfig (values : CliValues) (env : ProcessEnv)
    (auditType : AuditType) (triggeredBy : TriggerSource) : OrchestratorConfig :=
  {| cfg_type := auditType;
     cfg_triggeredBy := triggeredBy;
     cfg_modules :=
       match v_modules values with
       | Some modulesRaw =>
           if Js.truthy modulesRaw then Some (parseModules modulesRaw) else None
       | None => None
       end;
     cfg_dryRun := v_dryRun values;
     cfg_verbose := v_verbose values;
     cfg_convexUrl :=
       orElse (nullish (CONVEX_URL env) (nullish (CONVEX_SITE_URL env) []))
         (Js.lit "http://localhost:3000");
     cfg_apiKey := orElse (nullish (CLAW_API_KEY env) []) (Js.lit "dry-run-key") |}.

(** The Convex URL and API key [main] reads from the environment. *)
Definition envConvexUrl (env : ProcessEnv) : jsstring :=
  nullish (CONVEX_URL env) (nullish (CONVEX_SITE_URL env) []).

Definition envApiKey (env : ProcessEnv) : jsstring := nullish (CLAW_API_KEY env) [].

(** A module name as the command line leaves it: not empty, without a
    comma, and with no whitespace at either end. *)
Definition moduleName (m : jsstring) : Prop :=
  m <> [] /\ ~ In 44%N m
  /\ (exists u t, m = u :: t /\ Js.isWhiteSpace u = false)
  /\ (exists t u, m = t ++ [u] /\ Js.isWhiteSpace u = false).

(** What the recovery loop of [runSecureClaw] makes of one line. *)
Definition jsonCandidate {A} (parseJson : jsstring -> option A) (l : jsstring)
  : option A :=
  if Js.startsWith (Js.lit "{") (Js.trim l) then parseJson (Js.trim l) else None.

(** The endpoints of the alerter and of the reporter. *)
Definition securityEventsUrl (convexUrl : jsstring) : jsstring :=
  Js.stripTrailingSlash convexUrl ++ Js.lit "/api/security-events".

Definition reporterUrl (convexUrl path : jsstring) : jsstring :=
  Js.stripTrailingSlash convexUrl ++ path.

(** The results and the error messages of a list of completed scripts. *)
Definition outcomeResults (parseJson : jsstring -> option CustomCheckResult)
    (completed : list (jsstring * ProcessResult)) : list CustomCheckResult :=
  flat_map (fun d => match checkOutcome parseJson (fst d) (snd d) with
                     | inl parsed => [parsed] | inr _ => [] end) completed.

Definition outcomeErrors (parseJson : jsstring -> option CustomCheckResult)
    (completed : list (jsstring * ProcessResult)) : list jsstring :=
  flat_map (fun d => match checkOutcome parseJson (fst d) (snd d) with
                     | inl _ => [] | inr msg => [msg] end) completed.

(** The file names [runCustomChecks] picks from a directory listing. *)
Definition selected (config : OrchestratorConfig) (file : jsstring) : bool :=
  Js.endsWith (Js.lit ".sh") file
  && match cfg_type config with
     | supply_chain =>
         Js.includes (Js.lit "supply-chain") file || Js.includes (Js.lit "git") file
     | _ => true
     end.

(** ** Sample inputs *)

Definition scannerFinding (id name cat : string) (sev : FindingSeverity)
    (pass : bool) (mapping : option string) : SecureClawFinding :=
  {| sc_id := Js.lit id;
     sc_name := Js.lit name;
     sc_category := Some (Js.lit cat);
     sc_severity := sev;
     sc_passed := pass;
     sc_evidence := None;
     sc_remediation := None;
     sc_owaspMapping := option_map Js.lit mapping;
     sc_module := None |}.

(** A scanner finding with an id outside the id table that declares the
    mapping [asi99]. *)
Definition unlistedCodeFinding : SecureClawFinding :=
  scannerFinding "X-900" "Vendor extension check" "vendor" high false (Some "asi99"%string).

(** A scanner finding whose id names a member of [Object.prototype]. *)
Definition inheritedIdFinding : SecureClawFinding :=
  scannerFinding "constructor" "Vendor extension check" "vendor" high false None.

Definition finding (src : FindingSource) (id : string) (name : jsstring)
    (sev : FindingSeverity) (pass : bool) (ev : option jsstring)
  : NormalizedFinding :=
  {| checkId := Js.lit id;
     checkName := name;
     source := src;
     owaspCategory := VStr (code ASI03);
     owaspName := owaspNameOf (VStr (code ASI03));
     category := Js.lit "gateway_config";
     severity := sev;
     passed := pass;
     evidence := ev;
     remediation := None |}.

(** A persistence back end that accepts every call. *)
Definition acceptingWorld (previous : option PreviousAuditFindings)
    (raw : RawAuditOutput) : World :=
  {| w_scVersion := Js.lit "2.1";
     w_previous := previous;
     w_raw := raw;
     w_createAudit := fun _ => Ok (Js.lit "audit-1");
     w_postFindings := fun batch => Ok (List.map (fun b => checkId (body_finding b)) batch);
     w_completeAudit := fun _ _ => Ok tt;
     w_startedAt := 1000;
     w_finishedAt := 1250;
     w_upsertNow := 1300;
     w_alertNow := 1400 |}.

Definition config (type : AuditType) (dryRun : bool) : OrchestratorConfig :=
  {| cfg_type := type;
     cfg_modules := None;
     cfg_triggeredBy := manual;
     cfg_dryRun := dryRun;
     cfg_verbose := false;
     cfg_convexUrl := Js.lit "http://localhost:3000";
     cfg_apiKey := Js.lit "dry-run-key" |}.

(** What the runner hands over in a dry run of a full audit: the stand-in
    scanner output and no custom check. *)
Definition dryRunRaw : RawAuditOutput :=
  {| raw_secureclaw :=
       Some (mockSecureClawOutput (Js.lit "2026-01-01T00:00:00.000Z")
               (Js.lit "localhost") full);
     raw_customChecks := [];
     raw_errors := [] |}.

(** A scanner output that lists the one check it ran, which passed. *)
Definition cleanScannerOutput : SecureClawOutput :=
  {| out_version := Js.lit "2.1";
     out_timestamp := Js.lit "2026-01-01T00:00:00.000Z";
     out_hostname := Js.lit "localhost";
     out_checksRun := 1;
     out_checksPassed := 1;
     out_checksFailed := 0;
     out_findings :=
       [scannerFinding "SC-001" "Prompt injection guard" "prompt_injection"
          high true None];
     out_riskScore := 0 |}.

Definition cleanRaw : RawAuditOutput :=
  {| raw_secureclaw := Some cleanScannerOutput;
     raw_customChecks := [];
     raw_errors := [] |}.

(** The same run, except that one custom check script exited non-zero. *)
Definition erroredRaw : RawAuditOutput :=
  {| raw_secureclaw := Some cleanScannerOutput;
     raw_customChecks := [];
     raw_errors :=
       [Js.lit "Check script git-secret-scan.sh exited with code 1: "] |}.

Definition defaultValues : CliValues :=
  {| v_help := false;
     v_type := Js.lit "full";
     v_triggeredBy := Js.lit "manual";
     v_modules := None;
     v_dryRun := false;
     v_verbose := false |}.

Definition configuredEnv : ProcessEnv :=
  {| CONVEX_URL := Some (Js.lit "https://example.convex.site");
     CONVEX_SITE_URL := None;
     CLAW_API_KEY := Some (Js.lit "secret") |}.

(** Two runs of one host.  In the first a critical scanner finding
    fails; in the second it still fails, with other evidence and another
    label, and a custom check with the same check id fails for the first
    time. *)
Definition gatewayOpen : NormalizedFinding :=
  finding secureclaw "SC-900" (Js.lit "Gateway bound to all interfaces") critical false
    (Some (Js.lit "0.0.0.0:8080")).

Definition gatewayOpenLater : NormalizedFinding :=
  finding secureclaw "SC-900" (Js.lit "Gateway exposed") high false
    (Some (Js.lit "0.0.0.0:9090")).

Definition gatewayOpenCustom : NormalizedFinding :=
  finding custom "SC-900" (Js.lit "Gateway probe") critical false None.

Definition firstRun : PreviousAuditFindings :=
  {| prev_auditId := Js.lit "audit-0";
     prev_findings := [gatewayOpen];
     prev_hostRiskScore := 25 |}.

Definition customOnlyRun : PreviousAuditFindings :=
  {| prev_auditId := Js.lit "audit-0";
     prev_findings := [gatewayOpenCustom];
     prev_hostRiskScore := 25 |}.

(** A scanner output that counts 55 checks and lists the one that failed. *)
Definition failuresOnlyRaw : RawAuditOutput :=
  {| raw_secureclaw :=
       Some {| out_version := Js.lit "2.1";
               out_timestamp := Js.lit "2026-01-01T00:00:00.000Z";
               out_hostname := Js.lit "localhost";
               out_checksRun := 55;
               out_checksPassed := 54;
               out_checksFailed := 1;
               out_findings :=
                 [scannerFinding "SC-020" "API key in config" "secrets_exposure"
                    high false None];
               out_riskScore := 10 |};
     raw_customChecks := [];
     raw_errors := [] |}.

(** Two new criticals, the first with a check name of 200 units. *)
Definition longName : jsstring := repeat 97%N 200.

Definition twoCriticals : list NormalizedFinding :=
  [ finding secureclaw "SC-901" longName critical false None;
    finding custom "custom.zeta" (Js.lit "Zeta gateway probe") critical false None ].

Definition twoCriticalsDiff : AuditDiff :=
  compute (Js.lit "audit-1") twoCriticals 50 None.

Definition fiveCriticals : list NormalizedFinding :=
  repeat gatewayOpen 5.

(** A back end that rejects every call. *)
Definition rejectingWorld (previous : option PreviousAuditFindings)
    (raw : RawAuditOutput) : World :=
  {| w_scVersion := Js.lit "2.1";
     w_previous := previous;
     w_raw := raw;
     w_createAudit := fun _ => Err (Js.lit "HTTP 500 on POST /api/audits: ");
     w_postFindings := fun _ => Err (Js.lit "HTTP 500 on POST /api/audit-results: ");
     w_completeAudit := fun _ _ => Err (Js.lit "HTTP 500 on POST /api/audit-results: ");
     w_startedAt := 1000;
     w_finishedAt := 1250;
     w_upsertNow := 1300;
     w_alertNow := 1400 |}.

(** A custom check that fails with severity critical, and a run in which
    it is the only finding. *)
Definition keyExposed : CustomCheckResult :=
  {| cc_checkId := Js.lit "custom.mc-api-key-exposure";
     cc_checkName := Js.lit "API key exposure";
     cc_category := Js.lit "api_key_exposure";
     cc_owaspCategory := ASI03;
     cc_passed := false;
     cc_severity := critical;
     cc_evidence := None;
     cc_remediation := None |}.

Definition criticalRaw : RawAuditOutput :=
  {| raw_secureclaw := None;
     raw_customChecks := [keyExposed];
     raw_errors := [] |}.

(** Two check scripts as they completed: one printed its result, the other
    exited with status 1. *)
Definition twoCompleted : list (jsstring * ProcessResult) :=
  [ (Js.lit "mc-api-key-exposure.sh",
     {| proc_stdout := Js.lit "{}"; proc_stderr := []; proc_code := 0 |});
    (Js.lit "git-secret-scan.sh",
     {| proc_stdout := []; proc_stderr := Js.lit "fatal"; proc_code := 1 |}) ].

(** * Properties *)

(** ** The differ's loops as filters *)

Lemma classify_fold (keys : gset jsstring) (xs acc1 acc2 : list NormalizedFinding) :
  fold_left (classifyStep keys) xs (acc1, acc2)
  = (acc1 ++ List.filter (fun f => negb (inKeys keys f)) xs,
     acc2 ++ List.filter (inKeys keys) xs).
Proof.
  revert acc1 acc2.
  induction xs as [|x xs IH]; intros acc1 acc2.
  - simpl. now rewrite !app_nil_r.
  - cbn [fold_left List.filter].
    replace (classifyStep keys (acc1, acc2) x)
      with (if inKeys keys x then (acc1, acc2 ++ [x]) else (acc1 ++ [x], acc2))
      by (unfold classifyStep, inKeys; now destruct (has keys (makeFindingKey x))).
    destruct (inKeys keys x); cbn [negb]; rewrite IH, <- app_assoc; reflexivity.
Qed.

Lemma resolve_fold (keys : gset jsstring) (xs acc : list NormalizedFinding) :
  fold_left (resolveStep keys) xs acc
  = acc ++ List.filter (fun f => negb (inKeys keys f)) xs.
Proof.
  revert acc.
  induction xs as [|x xs IH]; intros acc.
  - simpl. now rewrite app_nil_r.
  - cbn [fold_left List.filter].
    replace (resolveStep keys acc x)
      with (if inKeys keys x then acc else acc ++ [x])
      by (unfold resolveStep, inKeys; now destruct (has keys (makeFindingKey x))).
    destruct (inKeys keys x); cbn [negb]; rewrite IH; [reflexivity|].
    rewrite <- app_assoc. reflexivity.
Qed.

(** The key separates the two fields: no key of one source is a key of
    the other, and within a source the check id is read back. *)
Lemma makeFindingKey_inj (f g : NormalizedFinding) :
  makeFindingKey f = makeFindingKey g
  <-> source f = source g /\ checkId f = checkId g.
Proof.
  unfold makeFindingKey. split.
  - destruct (source f), (source g); cbn; intros H.
    + split; [reflexivity|]. now inversion H.
    + discriminate H.
    + discriminate H.
    + split; [reflexivity|]. now inversion H.
  - intros [-> ->]. reflexivity.
Qed.

Lemma has_keySet (xs : list NormalizedFinding) (f : NormalizedFinding) :
  has (keySet xs) (makeFindingKey f) = true
  <-> exists g, In g xs /\ source g = source f /\ checkId g = checkId f.
Proof.
  unfold has, keySet. rewrite bool_decide_eq_true, elem_of_list_to_set.
  rewrite list_elem_of_In, in_map_iff. split.
  - intros (g & Hk & Hg). exists g. split; [exact Hg|].
    now apply makeFindingKey_inj.
  - intros (g & Hg & Hs & Hc). exists g. split; [|exact Hg].
    now apply makeFindingKey_inj.
Qed.

Lemma in_failed (xs : list NormalizedFinding) (f : NormalizedFinding) :
  In f (failedFindings xs) <-> In f xs /\ passed f = false.
Proof.
  unfold failedFindings. rewrite filter_In.
  destruct (passed f); simpl; intuition congruence.
Qed.

(** Closes a goal from [H : In f xs] where [xs] is empty or holds failing
    findings only, and [f] is known to have passed. *)
Ltac failed_not_passed H :=
  first
    [ destruct H
    | apply in_failed in H; destruct H as [_ H]; congruence
    | apply filter_In in H; destruct H as [H _]; failed_not_passed H ].

(** The buckets of a diff against a previous run, in closed form. *)
Lemma compute_some (cid : jsstring) (cur : list NormalizedFinding) (score : Z)
    (p : PreviousAuditFindings) :
  let prevKeys := keySet (failedFindings (prev_findings p)) in
  let curKeys := keySet (failedFindings cur) in
  let d := compute cid cur score (Some p) in
  newFindings d = List.filter (fun f => negb (inKeys prevKeys f)) (failedFindings cur)
  /\ persistingFindings d = List.filter (inKeys prevKeys) (failedFindings cur)
  /\ resolvedFindings d
     = List.filter (fun f => negb (inKeys curKeys f)) (failedFindings (prev_findings p))
  /\ newCriticals d
     = List.filter (fun f => bool_decide (severity f = critical)) (newFindings d).
Proof.
  cbv zeta. unfold compute. cbn [newFindings persistingFindings resolvedFindings newCriticals].
  fold (failedFindings cur). fold (failedFindings (prev_findings p)).
  rewrite classify_fold, resolve_fold. cbn [fst snd app]. auto.
Qed.

Lemma filter_split_perm {A} (p : A -> bool) (xs : list A) :
  Permutation (List.filter (fun a => negb (p a)) xs ++ List.filter p xs) xs.
Proof.
  induction xs as [|x xs IH]; simpl; [constructor|].
  destruct (p x); simpl.
  - symmetry. apply Permutation_cons_app. now symmetry.
  - now constructor.
Qed.

(** ** Diff laws *)

(** C2: the new and the persisting findings of a diff are disjoint, together
    they are exactly the failing findings of the current run (as a multiset,
    hence as a set), and a finding that passed is in no bucket of the diff. *)
Theorem diff_partition (cid : jsstring) (cur : list NormalizedFinding)
    (score : Z) (prev : option PreviousAuditFindings) :
  let d := compute cid cur score prev in
  Permutation (newFindings d ++ persistingFindings d) (failedFindings cur)
  /\ (forall f, ~ (In f (newFindings d) /\ In f (persistingFindings d)))
  /\ (forall f, In f (newFindings d) \/ In f (persistingFindings d)
                <-> In f cur /\ passed f = false)
  /\ (forall f, passed f = true ->
        ~ In f (newFindings d) /\ ~ In f (persistingFindings d)
        /\ ~ In f (resolvedFindings d) /\ ~ In f (newCriticals d)).
Proof.
  cbv zeta. destruct prev as [p|].
  - destruct (compute_some cid cur score p) as (Hn & Hp & Hr & Hc).
    cbv zeta in Hn, Hp, Hr, Hc. rewrite Hc, Hn, Hp, Hr. clear Hn Hp Hr Hc.
    set (pk := keySet (failedFindings (prev_findings p))).
    set (ck := keySet (failedFindings cur)).
    split; [apply filter_split_perm|].
    split.
    { intros f [H1 H2]. apply filter_In in H1, H2.
      destruct H1 as [_ H1], H2 as [_ H2]. rewrite H2 in H1. discriminate. }
    split.
    { intros f. rewrite <- in_failed, !filter_In.
      destruct (inKeys pk f); simpl; intuition congruence. }
    intros f Hf. repeat split; intros H; failed_not_passed H.
  - cbn [compute newFindings persistingFindings resolvedFindings newCriticals].
    fold (failedFindings cur). rewrite app_nil_r.
    split; [reflexivity|].
    split; [intros f [_ []]|].
    split; [intros f; rewrite <- in_failed; simpl; tauto|].
    intros f Hf. repeat split; intros H; failed_not_passed H.
Qed.

Lemma filter_identity (p q : NormalizedFinding -> bool)
    (xs ys : list NormalizedFinding) :
  List.map identity xs = List.map identity ys ->
  (forall f g, identity f = identity g -> p f = q g) ->
  List.map identity (List.filter p xs) = List.map identity (List.filter q ys).
Proof.
  intros Hm Hpq. revert ys Hm.
  induction xs as [|x xs IH]; intros [|y ys] Hm; simpl in Hm; try discriminate.
  - reflexivity.
  - assert (Hxy : identity x = identity y) by congruence.
    assert (Ht : List.map identity xs = List.map identity ys) by congruence.
    simpl. rewrite (Hpq x y Hxy). destruct (q y); simpl.
    + rewrite Hxy. f_equal. now apply IH.
    + now apply IH.
Qed.

Lemma failed_identity (xs ys : list NormalizedFinding) :
  List.map identity xs = List.map identity ys ->
  List.map identity (failedFindings xs) = List.map identity (failedFindings ys).
Proof.
  intros H. apply filter_identity; [exact H|].
  intros f g Hfg. unfold identity in Hfg. now inversion Hfg.
Qed.

Lemma keySet_identity (xs ys : list NormalizedFinding) :
  List.map identity xs = List.map identity ys -> keySet xs = keySet ys.
Proof.
  intros H. unfold keySet. f_equal.
  transitivity (List.map keyOfIdentity (List.map identity xs)).
  - now rewrite List.map_map.
  - rewrite H. now rewrite List.map_map.
Qed.

Lemma inKeys_identity (k : gset jsstring) (f g : NormalizedFinding) :
  identity f = identity g -> inKeys k f = inKeys k g.
Proof.
  intros H. unfold identity in H. inversion H as [[Hs Hc Hp]].
  unfold inKeys. f_equal. apply makeFindingKey_inj. now split.
Qed.

(** C4: classification depends only on the (source, checkId) keys of the
    failing findings.  A current failing finding persists exactly when some
    previous failing finding has its source and its check id; and two pairs
    of runs whose findings agree, position by position, on source, check id
    and pass flag (whatever their evidence, severity or names) get the same
    new, persisting and resolved findings up to those other fields. *)
Theorem diff_keyed_by_source_and_checkId (cid cid' : jsstring)
    (cur cur' : list NormalizedFinding) (score score' : Z)
    (prev prev' : option PreviousAuditFindings) :
  List.map identity cur = List.map identity cur' ->
  previousIdentity prev = previousIdentity prev' ->
  let d := compute cid cur score prev in
  let d' := compute cid' cur' score' prev' in
  (forall f, In f (persistingFindings d)
             <-> In f cur /\ passed f = false
                 /\ exists p g, prev = Some p /\ In g (prev_findings p)
                                /\ passed g = false
                                /\ source g = source f /\ checkId g = checkId f)
  /\ List.map identity (newFindings d) = List.map identity (newFindings d')
  /\ List.map identity (persistingFindings d) = List.map identity (persistingFindings d')
  /\ List.map identity (resolvedFindings d) = List.map identity (resolvedFindings d').
Proof.
  intros Hcur Hprev. cbv zeta. split.
  { intros f. destruct prev as [p|].
    - destruct (compute_some cid cur score p) as (_ & Hp & _).
      cbv zeta in Hp. rewrite Hp, filter_In, in_failed.
      unfold inKeys. rewrite has_keySet. split.
      + intros ([Hin Hf] & g & Hg & Hs & Hc). apply in_failed in Hg.
        destruct Hg as [Hg Hgp]. repeat split; try assumption.
        exists p, g. auto.
      + intros (Hin & Hf & p0 & g & Hp0 & Hg & Hgp & Hs & Hc).
        injection Hp0 as <-. split; [now split|].
        exists g. rewrite in_failed. auto.
    - simpl. split; [intros []|].
      intros (_ & _ & p & g & Hp & _). discriminate. }
  destruct prev as [p|], prev' as [p'|]; simpl in Hprev; try discriminate.
  - injection Hprev as Hprev.
    destruct (compute_some cid cur score p) as (Hn & Hp & Hr & _).
    destruct (compute_some cid' cur' score' p') as (Hn' & Hp' & Hr' & _).
    cbv zeta in Hn, Hp, Hr, Hn', Hp', Hr'. rewrite Hn, Hp, Hr, Hn', Hp', Hr'.
    pose proof (failed_identity _ _ Hcur) as Hfc.
    pose proof (failed_identity _ _ Hprev) as Hfp.
    rewrite <- (keySet_identity _ _ Hfc), <- (keySet_identity _ _ Hfp).
    repeat split; apply filter_identity; try assumption;
      intros f g Hfg; now rewrite (inKeys_identity _ f g Hfg).
  - cbn [compute newFindings persistingFindings resolvedFindings].
    repeat split. now apply failed_identity.
Qed.

(** C5: against no previous run, the new findings are the failing findings
    of the current list, nothing is resolved or persisting, and the score
    delta is the current score itself. *)
Theorem diff_without_previous (cid : jsstring) (F : list NormalizedFinding) (s : Z) :
  let d := compute cid F s None in
  newFindings d = failedFindings F
  /\ resolvedFindings d = []
  /\ persistingFindings d = []
  /\ riskScoreDelta d = s
  /\ previousAuditId d = None.
Proof. cbv zeta. unfold compute, failedFindings. simpl. auto. Qed.

(** ** Risk score *)

Lemma countSeverity_cons (s : FindingSeverity) (x : NormalizedFinding)
    (xs : list NormalizedFinding) :
  countSeverity s (x :: xs)
  = (if bool_decide (severity x = s) then 1 else 0) + countSeverity s xs.
Proof.
  unfold countSeverity. simpl.
  destruct (bool_decide (severity x = s)); simpl length; lia.
Qed.

Lemma weighted_counts (xs : list NormalizedFinding) :
  countSeverity critical xs * 25 + countSeverity high xs * 10
  + countSeverity medium xs * 3 + countSeverity low xs * 1
  = sumZ (List.map (fun f => weight (severity f)) xs).
Proof.
  induction xs as [|x xs IH]; [reflexivity|].
  rewrite !countSeverity_cons. cbn [List.map sumZ fold_right].
  fold (sumZ (List.map (fun f => weight (severity f)) xs)). rewrite <- IH.
  destruct (severity x); repeat case_bool_decide; try congruence; simpl weight; lia.
Qed.

Lemma countSeverity_nonneg (s : FindingSeverity) (xs : list NormalizedFinding) :
  0 <= countSeverity s xs.
Proof. unfold countSeverity. lia. Qed.

Lemma critical_weight_sum (cs : list NormalizedFinding) :
  Forall (fun f => passed f = false /\ severity f = critical) cs ->
  sumZ (List.map (fun f => weight (severity f)) (failedFindings cs))
  = 25 * Z.of_nat (length cs).
Proof.
  induction 1 as [|c cs [Hp Hs] _ IH]; [reflexivity|].
  unfold failedFindings in *. cbn [List.filter]. rewrite Hp. cbn [negb List.map sumZ fold_right].
  fold (sumZ (List.map (fun f => weight (severity f))
                (List.filter (fun f => negb (passed f)) cs))).
  rewrite IH, Hs. simpl weight. simpl length. lia.
Qed.

(** C3: the score is the sum of the weights 25/10/3/1/0 of the failing
    findings, clamped to 100; it lies in [0,100]; the empty list scores 0;
    a list of failing criticals scores min(100, 25 n), so one scores 25
    and five score 100. *)
Theorem risk_score_spec (findings cs : list NormalizedFinding) :
  Forall (fun f => passed f = false /\ severity f = critical) cs ->
  computeRiskScore findings = clampedWeightSum findings
  /\ 0 <= computeRiskScore findings <= 100
  /\ computeRiskScore [] = 0
  /\ computeRiskScore cs = Z.min 100 (25 * Z.of_nat (length cs))
  /\ (length cs = 1%nat -> computeRiskScore cs = 25)
  /\ (length cs = 5%nat -> computeRiskScore cs = 100).
Proof.
  intros Hcs.
  assert (Heq : forall xs, computeRiskScore xs = clampedWeightSum xs).
  { intros xs. unfold computeRiskScore, clampedWeightSum, failedFindings.
    cbv zeta. now rewrite weighted_counts. }
  assert (Hc : computeRiskScore cs = Z.min 100 (25 * Z.of_nat (length cs))).
  { rewrite Heq. unfold clampedWeightSum. now rewrite critical_weight_sum. }
  split; [apply Heq|]. split.
  { unfold computeRiskScore. cbv zeta.
    set (failed := List.filter (fun f => negb (passed f)) findings).
    pose proof (countSeverity_nonneg critical failed).
    pose proof (countSeverity_nonneg high failed).
    pose proof (countSeverity_nonneg medium failed).
    pose proof (countSeverity_nonneg low failed). lia. }
  split; [reflexivity|]. split; [exact Hc|].
  split; intros Hlen; rewrite Hc, Hlen; reflexivity.
Qed.

(** ** Evidence truncation *)

Lemma truncateEvidence_long (e : jsstring) :
  (EVIDENCE_MAX_CHARS < length e)%nat ->
  truncateEvidence (Some e) = Some (firstn EVIDENCE_MAX_CHARS e ++ truncationMarker).
Proof.
  intros H. unfold truncateEvidence.
  destruct e as [|u e]; [simpl in H; lia|]. cbn [Js.truthy negb].
  destruct (Nat.leb_spec (length (u :: e)) EVIDENCE_MAX_CHARS); [lia|reflexivity].
Qed.

Lemma truncateEvidence_short (e : jsstring) :
  e <> [] -> (length e <= EVIDENCE_MAX_CHARS)%nat ->
  truncateEvidence (Some e) = Some e.
Proof.
  intros Hne H. unfold truncateEvidence.
  destruct e as [|u e]; [congruence|]. cbn [Js.truthy negb].
  destruct (Nat.leb_spec (length (u :: e)) EVIDENCE_MAX_CHARS); [reflexivity|lia].
Qed.

(** Truncating what was already truncated changes nothing. *)
Lemma truncateEvidence_idempotent (ev : option jsstring) :
  truncateEvidence (truncateEvidence ev) = truncateEvidence ev.
Proof.
  destruct ev as [e|]; [|reflexivity].
  destruct e as [|u e]; [reflexivity|].
  destruct (Nat.le_gt_cases (length (u :: e)) EVIDENCE_MAX_CHARS) as [H|H].
  - rewrite (truncateEvidence_short (u :: e)) by (congruence || exact H).
    now apply truncateEvidence_short.
  - rewrite (truncateEvidence_long _ H).
    rewrite truncateEvidence_long.
    + now rewrite firstn_app, firstn_firstn, Nat.min_id, length_firstn,
        Nat.min_l, Nat.sub_diag, app_nil_r by lia.
    + rewrite length_app, length_firstn.
      change (length truncationMarker) with 12%nat. lia.
Qed.

(** C7, as the code has it: evidence longer than 500 code units is cut to
    its first 500 followed by the marker (a 600-unit string gives 500 units
    plus the marker); a non-empty string of at most 500 units is returned
    unchanged; absent evidence and the empty string both come out absent;
    both normalizers apply the truncation once to the raw evidence, and
    applying it again would change nothing. *)
Theorem truncateEvidence_spec (e : jsstring) (sc : SecureClawFinding)
    (cc : CustomCheckResult) :
  ((500 < length e)%nat ->
     truncateEvidence (Some e) = Some (firstn 500 e ++ truncationMarker)
     /\ length (firstn 500 e) = 500%nat
     /\ length (firstn 500 e ++ truncationMarker) = (500 + length truncationMarker)%nat)
  /\ (e <> [] -> (length e <= 500)%nat -> truncateEvidence (Some e) = Some e)
  /\ truncateEvidence (Some []) = None
  /\ truncateEvidence None = None
  /\ evidence (normalizeSecureClawFinding sc) = truncateEvidence (sc_evidence sc)
  /\ evidence (normalizeCustomCheckResult cc) = truncateEvidence (cc_evidence cc)
  /\ truncateEvidence (truncateEvidence (Some e)) = truncateEvidence (Some e).
Proof.
  split.
  { intros H. split; [now apply truncateEvidence_long|].
    rewrite length_app, length_firstn. lia. }
  split; [apply truncateEvidence_short|].
  repeat split. apply truncateEvidence_idempotent.
Qed.

(** ** OWASP category resolution *)

Lemma infer_by_id (f : SecureClawFinding) (c : OWASPCategory) :
  SECURECLAW_OWASP_MAP !! sc_id f = Some c ->
  inferOWASPFromSecureClawFinding f = VStr (code c).
Proof.
  intros H. unfold inferOWASPFromSecureClawFinding, Js.get. now rewrite H.
Qed.

Lemma infer_by_mapping (f : SecureClawFinding) (v : CategoryValue) :
  Js.get SECURECLAW_OWASP_MAP (sc_id f) = Js.Missing ->
  explicitMapping f = Some v ->
  inferOWASPFromSecureClawFinding f = v.
Proof.
  intros Hid Hm. unfold inferOWASPFromSecureClawFinding. now rewrite Hid, Hm.
Qed.

Lemma infer_by_category (f : SecureClawFinding) (c : OWASPCategory) :
  Js.get SECURECLAW_OWASP_MAP (sc_id f) = Js.Missing ->
  explicitMapping f = None ->
  CATEGORY_OWASP_MAP !! categoryKey f = Some c ->
  inferOWASPFromSecureClawFinding f = VStr (code c).
Proof.
  intros Hid Hm Hc. unfold inferOWASPFromSecureClawFinding.
  rewrite Hid, Hm. unfold Js.get. now rewrite Hc.
Qed.

Lemma infer_default (f : SecureClawFinding) :
  Js.get SECURECLAW_OWASP_MAP (sc_id f) = Js.Missing ->
  explicitMapping f = None ->
  Js.get CATEGORY_OWASP_MAP (categoryKey f) = Js.Missing ->
  inferOWASPFromSecureClawFinding f = VStr (code ASI03).
Proof.
  intros Hid Hm Hc. unfold inferOWASPFromSecureClawFinding.
  now rewrite Hid, Hm, Hc.
Qed.

(** A mapping field that holds one of the ten codes is taken as it is. *)
Lemma explicitMapping_code (f : SecureClawFinding) (c : OWASPCategory) :
  sc_owaspMapping f = Some (code c) -> explicitMapping f = Some (VStr (code c)).
Proof.
  intros H. unfold explicitMapping. rewrite H. now destruct c.
Qed.

(** C1, at a finding the resolution gets wrong: the id [X-900] is in no
    table and the mapping field reads [asi99]; the mapping step accepts it
    (upper-cased it starts with ASI and has five units) and the result is
    the string ASI99, which is none of the ten category codes, and for
    which the table of category names has no entry. *)
Theorem infer_returns_unlisted_code :
  inferOWASPFromSecureClawFinding unlistedCodeFinding = VStr (Js.lit "ASI99")
  /\ (forall c, inferOWASPFromSecureClawFinding unlistedCodeFinding <> VStr (code c))
  /\ owaspName (normalizeSecureClawFinding unlistedCodeFinding) = Js.Missing.
Proof.
  split; [reflexivity|]. split; [|reflexivity].
  intros c. destruct c; discriminate.
Qed.

(** Grouping by category, which indexes its ten groups with the resolved
    value, throws on that finding. *)
Lemma groupByOWASP_throws_on_unlisted_code :
  groupByOWASP [normalizeSecureClawFinding unlistedCodeFinding] = None.
Proof. vm_compute. reflexivity. Qed.

(** The id lookup also answers for names inherited from [Object.prototype]:
    the result is then not a string at all. *)
Lemma infer_returns_inherited_member :
  inferOWASPFromSecureClawFinding inheritedIdFinding
  = VInherited (Js.lit "constructor").
Proof. reflexivity. Qed.

(** ** Alerting *)

Lemma occursIn_refl (s : jsstring) : occursIn s s.
Proof. exists [], []. now rewrite app_nil_r. Qed.

Lemma occursIn_app_l (sub s pre : jsstring) :
  occursIn sub s -> occursIn sub (pre ++ s).
Proof.
  intros (b & a & ->). exists (pre ++ b), a. now rewrite <- app_assoc.
Qed.

Lemma occursIn_app_r (sub s post : jsstring) :
  occursIn sub s -> occursIn sub (s ++ post).
Proof.
  intros (b & a & ->). exists b, (a ++ post). now rewrite <- !app_assoc.
Qed.

Lemma occursIn_trans (a b c : jsstring) :
  occursIn a b -> occursIn b c -> occursIn a c.
Proof.
  intros Hab (pre & post & ->).
  now apply occursIn_app_l, occursIn_app_r.
Qed.

Lemma join_occurs (sep p : jsstring) (parts : list jsstring) :
  In p parts -> occursIn p (Js.join sep parts).
Proof.
  induction parts as [|q parts IH]; [intros []|].
  intros [->|Hin].
  - destruct parts as [|r parts]; [apply occursIn_refl|].
    cbn [Js.join]. apply occursIn_app_r, occursIn_refl.
  - destruct parts as [|r parts]; [destruct Hin|].
    cbn [Js.join]. apply occursIn_app_l, occursIn_app_l, IH, Hin.
Qed.

Lemma distinct_fold_In {A} `{EqDecision A} (x : A) (xs seen : list A) :
  In x (fold_left (fun seen x => if bool_decide (x ∈ seen) then seen else seen ++ [x])
          xs seen)
  <-> In x seen \/ In x xs.
Proof.
  revert seen. induction xs as [|y xs IH]; intros seen; cbn [fold_left].
  - simpl. tauto.
  - rewrite IH. case_bool_decide as Hy.
    + apply list_elem_of_In in Hy. simpl. split; [tauto|].
      intros [H|[->|H]]; tauto.
    + rewrite in_app_iff. simpl. tauto.
Qed.

Lemma distinct_In {A} `{EqDecision A} (x : A) (xs : list A) :
  In x (distinct xs) <-> In x xs.
Proof. unfold distinct. rewrite distinct_fold_In. simpl. tauto. Qed.

Lemma distinct_NoDup_fold {A} `{EqDecision A} (xs seen : list A) :
  List.NoDup seen ->
  List.NoDup (fold_left (fun seen x => if bool_decide (x ∈ seen) then seen else seen ++ [x])
           xs seen).
Proof.
  revert seen. induction xs as [|y xs IH]; intros seen Hs; cbn [fold_left]; [exact Hs|].
  apply IH. case_bool_decide as Hy; [exact Hs|].
  rewrite list_elem_of_In in Hy.
  apply List.NoDup_app; [exact Hs| |].
  - constructor; [intros []|constructor].
  - intros a Ha [<-|[]]. contradiction.
Qed.

(** The parts of the alert message. *)
Lemma buildAlertMessage_parts (criticals : list NormalizedFinding) (id : jsstring) :
  exists head,
    buildAlertMessage criticals id
    = head
        ++ (Js.lit "Categories: "
            ++ Js.join (Js.lit ", ")
                 (List.map categoryToString (distinct (List.map owaspCategory criticals)))
            ++ Js.lit " " ++ [8212%N] ++ Js.lit " ")
        ++ (Js.lit "Checks: "
            ++ firstn 200 (Js.join (Js.lit ", ") (List.map checkName criticals))).
Proof.
  exists (([55357; 57000]%N ++ Js.lit " " ++ Js.ofNat (length criticals)
             ++ Js.lit " new CRITICAL finding"
             ++ (if negb (length criticals =? 1)%nat then Js.lit "s" else [])
             ++ Js.lit " ")
          ++ (Js.lit "in audit " ++ id ++ Js.lit " " ++ [8212%N] ++ Js.lit " ")).
  unfold buildAlertMessage, Js.slice0. apply app_assoc.
Qed.

Lemma no_member_nil {A} (xs : list A) : (forall x, ~ In x xs) -> xs = [].
Proof.
  destruct xs as [|x xs]; [reflexivity|]. intros H. destruct (H x). now left.
Qed.

Lemma inKeys_sameKeyFailing (p : PreviousAuditFindings) (f : NormalizedFinding) :
  inKeys (keySet (failedFindings (prev_findings p))) f = true <-> sameKeyFailing p f.
Proof.
  unfold inKeys, sameKeyFailing. rewrite has_keySet.
  split; intros (g & H); exists g; rewrite in_failed in *; tauto.
Qed.

(** C6, as the code has it: an event is posted exactly when there are new
    criticals, and then exactly one, of type new_critical_finding, whose
    message names every category of the new criticals and the first 200
    code units of their comma-joined check names (all the names when the
    joined names fit in 200 units).  In a diff against a previous run the
    new criticals are the critical new findings; a failing finding whose
    key failed in the previous run is persisting and is no new critical;
    and when every failing critical of the run is such a finding, no event
    is posted. *)
Theorem alert_on_new_criticals (now : Z) (d : AuditDiff) (cid : jsstring)
    (cur : list NormalizedFinding) (score : Z) (p : PreviousAuditFindings) :
  (alertOnCriticals now d <> [] <-> newCriticals d <> [])
  /\ (newCriticals d <> [] ->
      exists ev,
        alertOnCriticals now d = [ev]
        /\ eventType ev = new_critical_finding
        /\ sourceId ev = Some (auditId d)
        /\ message ev = buildAlertMessage (newCriticals d) (auditId d)
        /\ (forall f, In f (newCriticals d) ->
              occursIn (categoryToString (owaspCategory f)) (message ev))
        /\ occursIn
             (firstn 200 (Js.join (Js.lit ", ") (List.map checkName (newCriticals d))))
             (message ev)
        /\ ((length (Js.join (Js.lit ", ") (List.map checkName (newCriticals d)))
             <= 200)%nat ->
            forall f, In f (newCriticals d) -> occursIn (checkName f) (message ev)))
  /\ (let D := compute cid cur score (Some p) in
      newCriticals D
      = List.filter (fun f => bool_decide (severity f = critical)) (newFindings D)
      /\ (forall f, In f cur -> passed f = false -> sameKeyFailing p f ->
            In f (persistingFindings D) /\ ~ In f (newCriticals D))
      /\ ((forall f, In f cur -> passed f = false -> severity f = critical ->
             sameKeyFailing p f) ->
          alertOnCriticals now D = [])).
Proof.
  split.
  { unfold alertOnCriticals. destruct (newCriticals d); simpl; split; congruence. }
  split.
  { intros Hne. unfold alertOnCriticals.
    destruct (newCriticals d) as [|c cs] eqn:Hc; [congruence|].
    cbn [length Nat.eqb]. eexists. split; [reflexivity|]. cbn [eventType sourceId message].
    repeat (split; [reflexivity|]).
    destruct (buildAlertMessage_parts (c :: cs) (auditId d)) as [head Hm].
    rewrite Hm. clear Hm.
    split; [|split].
    - intros f Hf. apply occursIn_app_l, occursIn_app_r, occursIn_app_l, occursIn_app_r.
      apply join_occurs, in_map, distinct_In, in_map, Hf.
    - apply occursIn_app_l, occursIn_app_l, occursIn_app_l, occursIn_refl.
    - intros Hlen f Hf. rewrite firstn_all2 by exact Hlen.
      apply occursIn_app_l, occursIn_app_l, occursIn_app_l.
      apply join_occurs, in_map, Hf. }
  cbv zeta. destruct (compute_some cid cur score p) as (Hn & Hp & _ & Hc).
  cbv zeta in Hn, Hp, Hc. split; [exact Hc|]. split.
  - intros f Hin Hf Hk. apply inKeys_sameKeyFailing in Hk. split.
    + rewrite Hp. apply filter_In. split; [|exact Hk]. now apply in_failed.
    + rewrite Hc, Hn. intros H. apply filter_In in H. destruct H as [H _].
      apply filter_In in H. destruct H as [_ H]. rewrite Hk in H. discriminate.
  - intros Hall. unfold alertOnCriticals.
    rewrite (no_member_nil (newCriticals (compute cid cur score (Some p)))); [reflexivity|].
    intros f. rewrite Hc, Hn. intros H.
    apply filter_In in H. destruct H as [H Hcrit].
    apply filter_In in H. destruct H as [H Hnk].
    apply in_failed in H. destruct H as [Hin Hf].
    apply bool_decide_eq_true in Hcrit.
    pose proof (Hall f Hin Hf Hcrit) as Hk.
    apply inKeys_sameKeyFailing in Hk. rewrite Hk in Hnk. discriminate.
Qed.

(** ** Reporting *)

(** When every post is accepted, the batches sent are the bodies from
    index [i] on, each once and in order. *)
Lemma postBatches_sent (post : list UpsertFindingBody -> Result (list jsstring))
    (bodies : list UpsertFindingBody) :
  (forall b, exists ids, post b = Ok ids) ->
  forall fuel i allIds,
    (length bodies - i < fuel)%nat ->
    concat (fst (postBatches fuel post bodies i allIds)) = skipn i bodies.
Proof.
  intros Hok. induction fuel as [|fuel IH]; intros i allIds Hfuel; [lia|].
  cbn [postBatches].
  destruct (Nat.ltb_spec i (length bodies)) as [Hi|Hi].
  - destruct (Hok (firstn BATCH_SIZE (skipn i bodies))) as [ids ->].
    cbn [fst concat]. rewrite IH by (unfold BATCH_SIZE; lia).
    rewrite Nat.add_comm, <- skipn_skipn. apply firstn_skipn.
  - simpl. symmetry. apply skipn_all2. lia.
Qed.

Lemma upsertFindings_sent (post : list UpsertFindingBody -> Result (list jsstring))
    (now : Z) (aid : jsstring) (findings : list NormalizedFinding) (diff : AuditDiff) :
  (forall b, exists ids, post b = Ok ids) ->
  concat (fst (upsertFindings post now aid findings diff))
  = findingBodies aid findings diff now.
Proof.
  intros Hok. unfold upsertFindings.
  rewrite (postBatches_sent post _ Hok) by lia. reflexivity.
Qed.

Lemma findingBodies_In (aid : jsstring) (findings : list NormalizedFinding)
    (diff : AuditDiff) (now : Z) (b : UpsertFindingBody) :
  In b (findingBodies aid findings diff now)
  <-> In (body_finding b) findings /\ passed (body_finding b) = false
      /\ b = {| body_finding := body_finding b;
                body_auditId := aid;
                isNew := has (list_to_set (List.map checkId (newFindings diff)))
                           (checkId (body_finding b));
                status := st_open;
                firstSeenAt := now;
                lastSeenAt := now |}.
Proof.
  unfold findingBodies. rewrite in_map_iff. split.
  - intros (f & <- & Hf). apply in_failed in Hf. cbn [body_finding]. tauto.
  - intros (Hin & Hp & Hb). exists (body_finding b). split; [now symmetry|].
    now apply in_failed.
Qed.

Lemma has_checkIds (xs : list NormalizedFinding) (k : jsstring) :
  has (list_to_set (List.map checkId xs)) k = true
  <-> exists g, In g xs /\ checkId g = k.
Proof.
  unfold has. rewrite bool_decide_eq_true, elem_of_list_to_set, list_elem_of_In.
  rewrite in_map_iff. split; intros (g & H); exists g; tauto.
Qed.

(** C10: the bodies the reporter builds are the failing findings in order,
    each flagged [isNew] exactly when its check id is the check id of some
    new finding of the diff, whatever the sources; so when two failing
    findings share a check id, differ in source, and only one of them is
    among the new findings, both are flagged. *)
Theorem upsert_isNew_by_checkId (aid : jsstring) (findings : list NormalizedFinding)
    (diff : AuditDiff) (now : Z) :
  let bodies := findingBodies aid findings diff now in
  List.map body_finding bodies = failedFindings findings
  /\ (forall b, In b bodies ->
        (isNew b = true
         <-> exists g, In g (newFindings diff)
                       /\ checkId g = checkId (body_finding b)))
  /\ (forall f1 f2,
        In f1 findings -> In f2 findings ->
        passed f1 = false -> passed f2 = false ->
        checkId f1 = checkId f2 -> source f1 <> source f2 ->
        In f1 (newFindings diff) -> ~ In f2 (newFindings diff) ->
        exists b1 b2, In b1 bodies /\ In b2 bodies
                      /\ body_finding b1 = f1 /\ body_finding b2 = f2
                      /\ isNew b1 = true /\ isNew b2 = true).
Proof.
  cbv zeta. split.
  { unfold findingBodies, failedFindings. rewrite List.map_map. cbn [body_finding].
    apply List.map_id. }
  split.
  { intros b Hb. apply findingBodies_In in Hb. destruct Hb as (_ & _ & Hb).
    rewrite Hb at 1. cbn [isNew]. apply has_checkIds. }
  intros f1 f2 H1 H2 Hp1 Hp2 Hid Hsrc Hnew _.
  set (mk := fun f => {| body_finding := f; body_auditId := aid;
                         isNew := has (list_to_set (List.map checkId (newFindings diff)))
                                    (checkId f);
                         status := st_open; firstSeenAt := now; lastSeenAt := now |}).
  assert (Hflag : forall f, checkId f = checkId f1 -> isNew (mk f) = true).
  { intros f Hf. cbn [mk isNew]. apply has_checkIds. exists f1. now split. }
  exists (mk f1), (mk f2). repeat split.
  - apply findingBodies_In. cbn [mk body_finding]. auto.
  - apply findingBodies_In. cbn [mk body_finding]. auto.
  - now apply Hflag.
  - now apply Hflag.
Qed.

(** ** Run summary *)

Lemma runAudit_summary (cfg : OrchestratorConfig) (w : World) :
  res_findings (fst (runAudit cfg w)) = parse (w_raw w)
  /\ exists diff,
       res_summary (fst (runAudit cfg w)) = summarize cfg w (parse (w_raw w)) diff.
Proof.
  unfold runAudit. destruct (cfg_dryRun cfg); cbn [negb].
  - cbn [fst res_findings res_summary]. eauto.
  - destruct (pushResults _ _ _ _) as [[[aid diff] sent] failure].
    cbn [fst res_findings res_summary]. eauto.
Qed.

Lemma filter_filter_length {A} (p q : A -> bool) (xs : list A) :
  length (List.filter q (List.filter p xs))
  = length (List.filter (fun a => p a && q a) xs).
Proof.
  induction xs as [|x xs IH]; [reflexivity|]. simpl.
  destruct (p x); simpl; [destruct (q x); simpl|]; now rewrite IH.
Qed.

Lemma filter_map_length {A B} (f : A -> B) (p : B -> bool) (xs : list A) :
  length (List.filter p (List.map f xs))
  = length (List.filter (fun a => p (f a)) xs).
Proof.
  induction xs as [|x xs IH]; [reflexivity|]. simpl.
  destruct (p (f x)); simpl; now rewrite IH.
Qed.

Lemma countSeverity_failed (s : FindingSeverity) (fs : list NormalizedFinding) :
  countSeverity s (List.filter (fun f => negb (passed f)) fs) = failingWith s fs.
Proof. unfold countSeverity, failingWith. now rewrite filter_filter_length. Qed.

(** C8, as the code has it: the findings of a run are the normalized raw
    output; checksRun is the scanner's own checksRun (0 without scanner
    output) plus the number of custom results, checksPassed the scanner's
    own checksPassed plus the custom results that passed, checksFailed
    their difference; each severity count is the number of failing
    findings of that severity; hostRiskScore is the score of the findings.
    When the scanner's two counters agree with the findings it lists,
    checksRun is the number of findings and checksPassed the number that
    passed. *)
Theorem summary_aggregates (cfg : OrchestratorConfig) (w : World) :
  let fs := res_findings (fst (runAudit cfg w)) in
  let s := res_summary (fst (runAudit cfg w)) in
  fs = parse (w_raw w)
  /\ checksRun s
     = match raw_secureclaw (w_raw w) with
       | Some sc => out_checksRun sc | None => 0 end
       + Z.of_nat (length (raw_customChecks (w_raw w)))
  /\ checksPassed s
     = match raw_secureclaw (w_raw w) with
       | Some sc => out_checksPassed sc | None => 0 end
       + Z.of_nat (length (List.filter cc_passed (raw_customChecks (w_raw w))))
  /\ checksFailed s = checksRun s - checksPassed s
  /\ criticalCount s = failingWith critical fs
  /\ highCount s = failingWith high fs
  /\ mediumCount s = failingWith medium fs
  /\ lowCount s = failingWith low fs
  /\ infoCount s = failingWith info fs
  /\ hostRiskScore s = computeRiskScore fs
  /\ (scannerConsistent (w_raw w) ->
      checksRun s = Z.of_nat (length fs) /\ checksPassed s = passedCount fs).
Proof.
  cbv zeta.
  destruct (runAudit_summary cfg w) as [Hf [diff Hs]]. rewrite Hf, Hs.
  unfold summarize. cbn [checksRun checksPassed checksFailed criticalCount highCount
    mediumCount lowCount infoCount hostRiskScore countBySeverity n_critical n_high
    n_medium n_low n_info].
  rewrite !countSeverity_failed.
  repeat (split; [reflexivity|]).
  intros Hcons.
  unfold getTotalChecksRun, getTotalChecksPassed, passedCount, parse, scannerConsistent in *.
  destruct (raw_secureclaw (w_raw w)) as [sc|].
  - destruct Hcons as [-> ->].
    rewrite List.filter_app, !length_app, !filter_map_length, !length_map.
    cbn [passed normalizeSecureClawFinding normalizeCustomCheckResult].
    rewrite !Nat2Z.inj_add. split; reflexivity.
  - cbn [app]. rewrite !filter_map_length, !length_map.
    cbn [passed normalizeCustomCheckResult]. split; reflexivity.
Qed.

(** C8, where the stated recount fails: the scanner counts 55 checks run
    and 54 passed and lists the one finding that failed.  The run completes
    (one batch with one finding is sent); its summary reports 55 checks run
    and 54 passed, and the run has one finding, which did not pass. *)
Lemma scanner_counts_exceed_findings :
  length (res_findings (fst (runAudit (config full false)
                               (acceptingWorld None failuresOnlyRaw)))) = 1%nat
  /\ res_errors (fst (runAudit (config full false)
                        (acceptingWorld None failuresOnlyRaw))) = []
  /\ length (sent_batches (snd (runAudit (config full false)
                                  (acceptingWorld None failuresOnlyRaw)))) = 1%nat
  /\ checksRun (res_summary (fst (runAudit (config full false)
                                    (acceptingWorld None failuresOnlyRaw)))) = 55
  /\ checksPassed (res_summary (fst (runAudit (config full false)
                                       (acceptingWorld None failuresOnlyRaw)))) = 54
  /\ checksRun (res_summary (fst (runAudit (config full false)
                                    (acceptingWorld None failuresOnlyRaw))))
     <> Z.of_nat (length (res_findings (fst (runAudit (config full false)
                                               (acceptingWorld None failuresOnlyRaw)))))
  /\ checksPassed (res_summary (fst (runAudit (config full false)
                                       (acceptingWorld None failuresOnlyRaw))))
     <> passedCount (res_findings (fst (runAudit (config full false)
                                          (acceptingWorld None failuresOnlyRaw)))).
Proof. vm_compute. repeat split; discriminate. Qed.

(** The stand-in output of a dry run is of the same kind: 55 checks run,
    50 passed, and no finding at all. *)
Lemma dry_run_counts_exceed_findings :
  res_findings (fst (runAudit (config full true) (acceptingWorld None dryRunRaw))) = []
  /\ checksRun (res_summary (fst (runAudit (config full true)
                                    (acceptingWorld None dryRunRaw)))) = 55
  /\ checksPassed (res_summary (fst (runAudit (config full true)
                                       (acceptingWorld None dryRunRaw)))) = 50
  /\ checksRun (res_summary (fst (runAudit (config full true)
                                    (acceptingWorld None dryRunRaw))))
     <> Z.of_nat (length (res_findings (fst (runAudit (config full true)
                                               (acceptingWorld None dryRunRaw))))).
Proof. vm_compute. repeat split; discriminate. Qed.

Lemma summary_aggregates_witness :
  scannerConsistent cleanRaw
  /\ checksRun (res_summary (fst (runAudit (config full false)
                                    (acceptingWorld None cleanRaw))))
     = Z.of_nat (length (res_findings (fst (runAudit (config full false)
                                              (acceptingWorld None cleanRaw))))).
Proof.
  assert (H : scannerConsistent (w_raw (acceptingWorld None cleanRaw)))
    by (split; reflexivity).
  split; [exact H|].
  destruct (summary_aggregates (config full false) (acceptingWorld None cleanRaw))
    as (_ & _ & _ & _ & _ & _ & _ & _ & _ & _ & Hc).
  exact (proj1 (Hc H)).
Defined.

(** ** Exit status *)

(** The status after the audit ran depends on the outcome, the new
    criticals and the dry-run flag, and on nothing else. *)
Lemma exitAfterRun_cases (dryRun : bool) (outcome : RunOutcome) :
  match outcome with
  | Threw _ => exitAfterRun dryRun outcome = 1
  | Returned r =>
      (newCriticals (res_diff r) <> [] /\ dryRun = false
       /\ exitAfterRun dryRun outcome = 2)
      \/ ((newCriticals (res_diff r) = [] \/ dryRun = true)
          /\ exitAfterRun dryRun outcome = 0)
  end.
Proof.
  destruct outcome as [r|err]; [|reflexivity]. unfold exitAfterRun.
  destruct (newCriticals (res_diff r)) as [|c cs], dryRun; simpl.
  - right. auto.
  - right. auto.
  - right. auto.
  - left. repeat split. congruence.
Qed.

Lemma exit_status_ignores_errors (dryRun : bool) (r : OrchestratorResult) :
  newCriticals (res_diff r) = [] -> exitAfterRun dryRun (Returned r) = 0.
Proof. intros H. unfold exitAfterRun. now rewrite H. Qed.

(** C9, at a run the exit status gets wrong: a full audit, not a dry run,
    in which one custom check script exited non-zero.  The run returns with
    that error in its list and no new critical, and the process ends with
    status 0, the status of the same run without the error. *)
Theorem exit_status_with_errors_is_clean_status :
  res_errors (fst (runAudit (config full false) (acceptingWorld None erroredRaw)))
  = [Js.lit "Check script git-secret-scan.sh exited with code 1: "]
  /\ newCriticals (res_diff (fst (runAudit (config full false)
                                    (acceptingWorld None erroredRaw)))) = []
  /\ main (fun cfg => Returned (fst (runAudit cfg (acceptingWorld None erroredRaw))))
       defaultValues configuredEnv = 0
  /\ res_errors (fst (runAudit (config full false) (acceptingWorld None cleanRaw))) = []
  /\ main (fun cfg => Returned (fst (runAudit cfg (acceptingWorld None cleanRaw))))
       defaultValues configuredEnv = 0.
Proof. vm_compute. repeat split. Qed.

(** The other outcomes: a thrown error ends with 1, a new critical with 2,
    a dry run with 0 whatever it found. *)
Lemma exit_status_other_outcomes (r : OrchestratorResult) (err : jsstring) :
  exitAfterRun false (Threw err) = 1
  /\ (newCriticals (res_diff r) <> [] -> exitAfterRun false (Returned r) = 2)
  /\ exitAfterRun true (Returned r) = 0.
Proof.
  unfold exitAfterRun. split; [reflexivity|].
  destruct (newCriticals (res_diff r)); simpl; split; congruence.
Qed.

(** ** Worked instances *)

Lemma diff_partition_witness :
  Permutation
    (newFindings (compute (Js.lit "audit-1") [gatewayOpenLater; gatewayOpenCustom] 50
                    (Some firstRun))
     ++ persistingFindings (compute (Js.lit "audit-1")
                              [gatewayOpenLater; gatewayOpenCustom] 50 (Some firstRun)))
    (failedFindings [gatewayOpenLater; gatewayOpenCustom]).
Proof.
  exact (proj1 (diff_partition (Js.lit "audit-1") [gatewayOpenLater; gatewayOpenCustom]
                  50 (Some firstRun))).
Defined.

(** The second run against the first: the scanner finding persists although
    its evidence, label and severity changed. *)
Lemma diff_keyed_witness :
  List.map identity [gatewayOpenLater] = List.map identity [gatewayOpen]
  /\ List.map identity
       (persistingFindings (compute (Js.lit "audit-1") [gatewayOpenLater] 10
                              (Some firstRun)))
     = List.map identity
         (persistingFindings (compute (Js.lit "audit-1") [gatewayOpen] 25
                                (Some firstRun))).
Proof.
  split; [reflexivity|].
  destruct (diff_keyed_by_source_and_checkId (Js.lit "audit-1") (Js.lit "audit-1")
              [gatewayOpenLater] [gatewayOpen] 10 25 (Some firstRun) (Some firstRun)
              eq_refl eq_refl) as (_ & _ & H & _).
  exact H.
Defined.

Lemma risk_score_witness :
  Forall (fun f => passed f = false /\ severity f = critical) fiveCriticals
  /\ computeRiskScore fiveCriticals = 100.
Proof.
  assert (H : Forall (fun f => passed f = false /\ severity f = critical) fiveCriticals)
    by (repeat constructor).
  split; [exact H|].
  destruct (risk_score_spec [] fiveCriticals H) as (_ & _ & _ & _ & _ & H5).
  exact (H5 eq_refl).
Defined.

(** C7, where the stated rule fails: the empty string has at most 500
    units and is not returned unchanged; it comes out absent. *)
Lemma empty_evidence_becomes_absent :
  (length ([] : jsstring) <= 500)%nat
  /\ truncateEvidence (Some []) = None
  /\ truncateEvidence (Some []) <> Some [].
Proof. split; [simpl; lia|]. split; [reflexivity|discriminate]. Qed.

(** A 600-unit evidence string. *)
Lemma truncateEvidence_witness :
  (500 < length (repeat 120%N 600))%nat
  /\ truncateEvidence (Some (repeat 120%N 600))
     = Some (repeat 120%N 500 ++ truncationMarker).
Proof.
  assert (H : (500 < length (repeat 120%N 600))%nat) by (rewrite repeat_length; lia).
  split; [exact H|].
  destruct (truncateEvidence_spec (repeat 120%N 600) unlistedCodeFinding
              {| cc_checkId := []; cc_checkName := []; cc_category := [];
                 cc_owaspCategory := ASI03; cc_passed := true; cc_severity := info;
                 cc_evidence := None; cc_remediation := None |}) as (Hlong & _).
  exact (proj1 (Hlong H)).
Defined.

(** C6, where the stated message fails: two new criticals, the first with
    a check name of 200 units.  One event is posted, and the check name of
    the second finding does not occur in its message. *)
Lemma alert_message_drops_check_name :
  exists ev f,
    alertOnCriticals 1400 twoCriticalsDiff = [ev]
    /\ In f (newCriticals twoCriticalsDiff)
    /\ ~ occursIn (checkName f) (message ev).
Proof.
  eexists. exists (finding custom "custom.zeta" (Js.lit "Zeta gateway probe")
                     critical false None).
  split; [reflexivity|]. split; [right; left; reflexivity|].
  intros (before & after & H).
  assert (Hz : existsb (N.eqb 90)
                 (before ++ Js.lit "Zeta gateway probe" ++ after) = true).
  { apply existsb_exists. exists 90%N. split; [|reflexivity].
    apply in_or_app. right. now left. }
  cbn [message checkName finding] in H. rewrite <- H in Hz.
  vm_compute in Hz. discriminate Hz.
Qed.

(** The second run against the first: the critical finding still fails,
    nothing else is critical, and no event is posted. *)
Lemma alert_witness :
  alertOnCriticals 1400 (compute (Js.lit "audit-1") [gatewayOpen] 25 (Some firstRun)) = [].
Proof.
  destruct (alert_on_new_criticals 1400
              (compute (Js.lit "audit-1") [gatewayOpen] 25 (Some firstRun))
              (Js.lit "audit-1") [gatewayOpen] 25 firstRun) as (_ & _ & _ & _ & H).
  apply H. intros f [<-|[]] _ _. exists gatewayOpen.
  repeat split. now left.
Defined.

(** The custom finding failed in the previous run and the scanner finding
    with the same check id is new: both bodies are flagged. *)
Lemma upsert_isNew_witness :
  exists b1 b2,
    In b1 (findingBodies (Js.lit "audit-1") [gatewayOpen; gatewayOpenCustom]
             (compute (Js.lit "audit-1") [gatewayOpen; gatewayOpenCustom] 50
                (Some customOnlyRun)) 1300)
    /\ In b2 (findingBodies (Js.lit "audit-1") [gatewayOpen; gatewayOpenCustom]
                (compute (Js.lit "audit-1") [gatewayOpen; gatewayOpenCustom] 50
                   (Some customOnlyRun)) 1300)
    /\ body_finding b1 = gatewayOpen /\ body_finding b2 = gatewayOpenCustom
    /\ isNew b1 = true /\ isNew b2 = true.
Proof.
  destruct (upsert_isNew_by_checkId (Js.lit "audit-1") [gatewayOpen; gatewayOpenCustom]
              (compute (Js.lit "audit-1") [gatewayOpen; gatewayOpenCustom] 50
                 (Some customOnlyRun)) 1300) as (_ & _ & H).
  assert (Hnew : newFindings (compute (Js.lit "audit-1")
                                [gatewayOpen; gatewayOpenCustom] 50 (Some customOnlyRun))
                 = [gatewayOpen]) by (vm_compute; reflexivity).
  apply H.
  - now left.
  - right. now left.
  - reflexivity.
  - reflexivity.
  - reflexivity.
  - discriminate.
  - rewrite Hnew. now left.
  - rewrite Hnew. intros [Hc|[]]. discriminate Hc.
Defined.

(** * Further properties *)

(** ** The differ *)

Lemma inKeys_keyFailsIn (xs : list NormalizedFinding) (f : NormalizedFinding) :
  inKeys (keySet (failedFindings xs)) f = true <-> keyFailsIn xs f.
Proof.
  unfold inKeys, keyFailsIn. rewrite has_keySet.
  split; intros (g & H); exists g; rewrite in_failed in *; tauto.
Qed.

Lemma filter_true_id {A} (p : A -> bool) (xs : list A) :
  (forall x, In x xs -> p x = true) -> List.filter p xs = xs.
Proof.
  induction xs as [|x xs IH]; intros H; [reflexivity|]. simpl.
  rewrite (H x) by now left. f_equal. apply IH. intros y Hy. apply H. now right.
Qed.

Lemma filter_false_nil {A} (p : A -> bool) (xs : list A) :
  (forall x, In x xs -> p x = false) -> List.filter p xs = [].
Proof.
  induction xs as [|x xs IH]; intros H; [reflexivity|]. simpl.
  rewrite (H x) by now left. apply IH. intros y Hy. apply H. now right.
Qed.

Lemma failed_idempotent (xs : list NormalizedFinding) :
  failedFindings (failedFindings xs) = failedFindings xs.
Proof.
  apply filter_true_id. intros f Hf. apply in_failed in Hf. now destruct Hf as [_ ->].
Qed.

(** X1: A finding is resolved exactly when it failed in the previous run and no
    failing finding of the current run has its source and check id. *)
Theorem resolved_iff (cid : jsstring) (cur : list NormalizedFinding) (score : Z)
    (p : PreviousAuditFindings) (f : NormalizedFinding) :
  In f (resolvedFindings (compute cid cur score (Some p)))
  <-> In f (prev_findings p) /\ passed f = false /\ ~ keyFailsIn cur f.
Proof.
  destruct (compute_some cid cur score p) as (_ & _ & Hr & _). cbv zeta in Hr.
  rewrite Hr, filter_In, in_failed, <- inKeys_keyFailsIn.
  destruct (inKeys (keySet (failedFindings cur)) f); simpl; intuition congruence.
Qed.

(** X2: Diffing two runs in the other direction exchanges new and resolved and
    negates the score delta; the persisting findings of the two directions
    have the same keys. *)
Theorem diff_swap (cidA cidB idA idB : jsstring) (A B : list NormalizedFinding)
    (sA sB : Z) :
  let forward := compute cidB B sB (Some (asPrevious idA A sA)) in
  let backward := compute cidA A sA (Some (asPrevious idB B sB)) in
  resolvedFindings forward = newFindings backward
  /\ newFindings forward = resolvedFindings backward
  /\ riskScoreDelta forward = - riskScoreDelta backward
  /\ keySet (persistingFindings forward) = keySet (persistingFindings backward).
Proof.
  cbv zeta.
  destruct (compute_some cidB B sB (asPrevious idA A sA)) as (Hn & Hp & Hr & _).
  destruct (compute_some cidA A sA (asPrevious idB B sB)) as (Hn' & Hp' & Hr' & _).
  cbv zeta in *. cbn [asPrevious prev_findings] in *.
  rewrite Hn, Hp, Hr, Hn', Hp', Hr'.
  split; [reflexivity|]. split; [reflexivity|].
  split; [cbn; lia|].
  apply set_eq. intros k. unfold keySet.
  rewrite !elem_of_list_to_set, !list_elem_of_In, !in_map_iff.
  split; intros (f & <- & Hf); apply filter_In in Hf; destruct Hf as [Hf Hk];
    apply inKeys_keyFailsIn in Hk; destruct Hk as (g & Hg & Hgp & Hs & Hc);
    apply in_failed in Hf; destruct Hf as [Hf Hfp];
    (exists g; split; [now apply makeFindingKey_inj|]);
    apply filter_In; (split; [now apply in_failed|]);
    apply inKeys_keyFailsIn; exists f; auto.
Qed.

(** X3: A run diffed against itself: nothing is new or resolved, every failing
    finding persists, the delta is 0 and no event is posted. *)
Theorem diff_against_itself (cid id : jsstring) (F : list NormalizedFinding)
    (s now : Z) :
  let d := compute cid F s (Some (asPrevious id F s)) in
  newFindings d = [] /\ resolvedFindings d = []
  /\ persistingFindings d = failedFindings F
  /\ riskScoreDelta d = 0 /\ newCriticals d = []
  /\ alertOnCriticals now d = [].
Proof.
  cbv zeta.
  destruct (compute_some cid F s (asPrevious id F s)) as (Hn & Hp & Hr & Hc).
  cbv zeta in *. cbn [asPrevious prev_findings] in *.
  assert (Hall : forall f, In f (failedFindings F) ->
                   inKeys (keySet (failedFindings F)) f = true).
  { intros f Hf. apply inKeys_keyFailsIn. exists f. apply in_failed in Hf. tauto. }
  assert (Hnone : List.filter (fun f => negb (inKeys (keySet (failedFindings F)) f))
                    (failedFindings F) = []).
  { apply filter_false_nil. intros f Hf. now rewrite Hall. }
  rewrite Hnone in Hn, Hr.
  unfold alertOnCriticals. rewrite Hc, Hn, Hr, Hp. cbn [List.filter length Nat.eqb].
  repeat split; try reflexivity.
  - now apply filter_true_id.
  - cbn. lia.
Qed.

Lemma filter_sublist {A} (p : A -> bool) (xs : list A) :
  sublist (List.filter p xs) xs.
Proof.
  induction xs as [|x xs IH]; simpl; [constructor|].
  destruct (p x); now constructor.
Qed.

(** X4: The buckets keep the order of the runs they come from: the new and the
    persisting findings are subsequences of the current findings, the
    resolved ones of the previous findings, and the sizes of the first two
    add up to the number of failing findings. *)
Theorem diff_keeps_order (cid : jsstring) (cur : list NormalizedFinding) (score : Z)
    (p : PreviousAuditFindings) :
  let d := compute cid cur score (Some p) in
  sublist (newFindings d) cur
  /\ sublist (persistingFindings d) cur
  /\ sublist (resolvedFindings d) (prev_findings p)
  /\ sublist (newCriticals d) (newFindings d)
  /\ (length (newFindings d) + length (persistingFindings d)
      = length (failedFindings cur))%nat.
Proof.
  cbv zeta. destruct (compute_some cid cur score p) as (Hn & Hp & Hr & Hc).
  cbv zeta in *. rewrite Hc, Hn, Hp, Hr. unfold failedFindings.
  split; [etransitivity; apply filter_sublist|].
  split; [etransitivity; apply filter_sublist|].
  split; [etransitivity; apply filter_sublist|].
  split; [apply filter_sublist|].
  rewrite <- length_app. apply Permutation_length, filter_split_perm.
Qed.

(** Findings that passed, in either run, have no part in the diff: dropping
    them from both runs gives the same diff. *)
Lemma diff_ignores_passed (cid : jsstring) (cur : list NormalizedFinding)
    (score : Z) (p : PreviousAuditFindings) :
  compute cid cur score (Some p)
  = compute cid (failedFindings cur) score
      (Some (asPrevious (prev_auditId p) (failedFindings (prev_findings p))
               (prev_hostRiskScore p)))
  /\ compute cid cur score None = compute cid (failedFindings cur) score None.
Proof.
  unfold compute. cbn [asPrevious prev_findings prev_auditId prev_hostRiskScore].
  fold (failedFindings cur). fold (failedFindings (prev_findings p)).
  fold (failedFindings (failedFindings cur)).
  fold (failedFindings (failedFindings (prev_findings p))).
  now rewrite !failed_idempotent.
Qed.

(** X5: End to end: diffing a run and alerting on the diff posts an event
    exactly when some failing critical finding of the run has no failing
    counterpart, by source and check id, in the previous run; without a
    previous run, exactly when some critical finding fails. *)
Theorem alert_iff_uncovered_critical (now : Z) (cid : jsstring)
    (cur : list NormalizedFinding) (score : Z) (prev : option PreviousAuditFindings) :
  alertOnCriticals now (compute cid cur score prev) <> []
  <-> exists f, In f cur /\ passed f = false /\ severity f = critical
                /\ match prev with
                   | Some p => ~ keyFailsIn (prev_findings p) f
                   | None => True
                   end.
Proof.
  assert (Hal : forall d, alertOnCriticals now d <> [] <-> exists f, In f (newCriticals d)).
  { intros d. unfold alertOnCriticals. destruct (newCriticals d) as [|c cs]; simpl.
    - split; [congruence|]. intros [f []].
    - split; [|congruence]. intros _. exists c. now left. }
  rewrite Hal. destruct prev as [p|].
  - destruct (compute_some cid cur score p) as (Hn & _ & _ & Hc). cbv zeta in *.
    rewrite Hc, Hn.
    split; intros (f & H); exists f.
    + apply filter_In in H. destruct H as [H Hcrit].
      apply filter_In in H. destruct H as [H Hk].
      apply in_failed in H. apply bool_decide_eq_true in Hcrit.
      rewrite <- inKeys_keyFailsIn. destruct (inKeys _ f); [discriminate|].
      intuition congruence.
    + destruct H as (Hin & Hp & Hcrit & Hk).
      rewrite <- inKeys_keyFailsIn in Hk.
      rewrite !filter_In, in_failed, bool_decide_eq_true.
      destruct (inKeys _ f); [congruence|]. auto.
  - cbn [compute newCriticals]. fold (failedFindings cur).
    split; intros (f & H); exists f.
    + apply filter_In in H. destruct H as [H Hcrit].
      apply in_failed in H. apply bool_decide_eq_true in Hcrit. tauto.
    + rewrite filter_In, in_failed, bool_decide_eq_true. tauto.
Qed.

(** ** The scorer *)

Lemma filter_Permutation_bool {A} (p : A -> bool) (xs ys : list A) :
  Permutation xs ys -> Permutation (List.filter p xs) (List.filter p ys).
Proof.
  induction 1 as [|x xs ys _ IH|x y xs|xs ys zs _ IH1 _ IH2]; simpl.
  - constructor.
  - destruct (p x); [now constructor|exact IH].
  - destruct (p x), (p y); try reflexivity. constructor.
  - now transitivity (List.filter p ys).
Qed.

Lemma countSeverity_Permutation (s : FindingSeverity) (xs ys : list NormalizedFinding) :
  Permutation xs ys -> countSeverity s xs = countSeverity s ys.
Proof.
  intros H. unfold countSeverity. f_equal.
  now apply Permutation_length, filter_Permutation_bool.
Qed.

Lemma countSeverity_app (s : FindingSeverity) (xs ys : list NormalizedFinding) :
  countSeverity s (xs ++ ys) = countSeverity s xs + countSeverity s ys.
Proof. unfold countSeverity. rewrite List.filter_app, length_app. lia. Qed.

(** X6: The score and the severity counts do not depend on the order of the
    findings. *)
Theorem score_order_independent (xs ys : list NormalizedFinding) :
  Permutation xs ys ->
  computeRiskScore xs = computeRiskScore ys
  /\ countBySeverity xs = countBySeverity ys.
Proof.
  intros H.
  pose proof (filter_Permutation_bool (fun f => negb (passed f)) _ _ H) as Hf.
  unfold computeRiskScore, countBySeverity. cbv zeta.
  now rewrite !(fun s => countSeverity_Permutation s _ _ Hf).
Qed.

(** X7: More findings never lower the score. *)
Theorem score_monotone (xs ys : list NormalizedFinding) :
  computeRiskScore xs <= computeRiskScore (xs ++ ys).
Proof.
  unfold computeRiskScore. cbv zeta. rewrite List.filter_app, !countSeverity_app.
  set (fx := List.filter (fun f => negb (passed f)) xs).
  set (fy := List.filter (fun f => negb (passed f)) ys).
  pose proof (countSeverity_nonneg critical fy).
  pose proof (countSeverity_nonneg high fy).
  pose proof (countSeverity_nonneg medium fy).
  pose proof (countSeverity_nonneg low fy). lia.
Qed.

Lemma weight_sum_zero (xs : list NormalizedFinding) :
  sumZ (List.map (fun f => weight (severity f)) xs) = 0
  <-> forall f, In f xs -> severity f = info.
Proof.
  induction xs as [|x xs IH]; simpl.
  - split; [intros _ f []|reflexivity].
  - assert (Hn : 0 <= sumZ (List.map (fun f => weight (severity f)) xs)).
    { clear. induction xs as [|y ys IHy]; simpl; [lia|]. destruct (severity y); simpl; lia. }
    fold (sumZ (List.map (fun f => weight (severity f)) xs)). split.
    + intros H f [<-|Hf].
      * destruct (severity x); simpl in H; try lia. reflexivity.
      * apply IH; [|exact Hf]. destruct (severity x); simpl in H; lia.
    + intros H. rewrite (H x) by now left. simpl.
      apply IH. intros f Hf. apply H. now right.
Qed.

(** X8: The score is 0 exactly when every finding either passed or has
    severity info. *)
Theorem score_zero_iff (xs : list NormalizedFinding) :
  computeRiskScore xs = 0
  <-> forall f, In f xs -> passed f = true \/ severity f = info.
Proof.
  unfold computeRiskScore. cbv zeta. rewrite weighted_counts.
  fold (failedFindings xs).
  assert (Hn : 0 <= sumZ (List.map (fun f => weight (severity f)) (failedFindings xs))).
  { induction (failedFindings xs) as [|y ys IHy]; simpl; [lia|].
    destruct (severity y); simpl; lia. }
  transitivity (sumZ (List.map (fun f => weight (severity f)) (failedFindings xs)) = 0);
    [lia|].
  rewrite weight_sum_zero. split.
  - intros H f Hf. destruct (passed f) eqn:Hp; [now left|right].
    apply H. now apply in_failed.
  - intros H f Hf. apply in_failed in Hf. destruct Hf as [Hf Hp].
    destruct (H f Hf); congruence.
Qed.

(** X9: The five severity counts add up to the number of failing findings. *)
Theorem severity_counts_total (xs : list NormalizedFinding) :
  n_critical (countBySeverity xs) + n_high (countBySeverity xs)
  + n_medium (countBySeverity xs) + n_low (countBySeverity xs)
  + n_info (countBySeverity xs)
  = Z.of_nat (length (failedFindings xs)).
Proof.
  unfold countBySeverity. cbn [n_critical n_high n_medium n_low n_info].
  fold (failedFindings xs).
  induction (failedFindings xs) as [|x fs IH]; [reflexivity|].
  rewrite !countSeverity_cons. cbn [length].
  destruct (severity x); repeat case_bool_decide; try congruence; lia.
Qed.

(** ** The normalizer *)

(** X10: Every raw finding is kept, scanner findings first and then the custom
    checks, each in its producer's order, with its id, pass flag and
    severity, and tagged with its producer. *)
Theorem parse_retains_all (raw : RawAuditOutput) :
  let scanned := match raw_secureclaw raw with
                 | Some sc => out_findings sc | None => [] end in
  List.map checkId (parse raw)
  = List.map sc_id scanned ++ List.map cc_checkId (raw_customChecks raw)
  /\ List.map passed (parse raw)
     = List.map sc_passed scanned ++ List.map cc_passed (raw_customChecks raw)
  /\ List.map severity (parse raw)
     = List.map sc_severity scanned ++ List.map cc_severity (raw_customChecks raw)
  /\ List.map source (parse raw)
     = repeat secureclaw (length scanned)
       ++ repeat custom (length (raw_customChecks raw))
  /\ length (parse raw) = (length scanned + length (raw_customChecks raw))%nat.
Proof.
  cbv zeta. unfold parse.
  assert (Hrep : forall {A B} (b : B) (xs : list A),
             List.map (fun _ => b) xs = repeat b (length xs)).
  { intros A B b xs. induction xs as [|x xs IH]; simpl; congruence. }
  destruct (raw_secureclaw raw) as [sc|]; cbn [app List.map length repeat];
    rewrite ?List.map_app, ?length_app, ?List.map_map, ?length_map;
    cbn [checkId passed severity source normalizeSecureClawFinding
           normalizeCustomCheckResult];
    rewrite <- ?Hrep; repeat split; reflexivity.
Qed.

Lemma truthy_nonempty (s : jsstring) : Js.truthy s = true <-> s <> [].
Proof. destruct s; simpl; split; congruence. Qed.

(** X11: What normalization leaves of an evidence field is absent or a
    non-empty string of at most 512 code units whose first 500 units are
    those of the raw evidence. *)
Theorem truncateEvidence_bounded (ev : option jsstring) :
  match truncateEvidence ev with
  | None => ev = None \/ ev = Some []
  | Some t =>
      t <> [] /\ (length t <= 512)%nat
      /\ exists e, ev = Some e /\ firstn 500 t = firstn 500 e
  end.
Proof.
  destruct ev as [e|]; [|left; reflexivity].
  destruct e as [|u e]; [right; reflexivity|].
  destruct (Nat.le_gt_cases (length (u :: e)) EVIDENCE_MAX_CHARS) as [H|H].
  - rewrite truncateEvidence_short by (congruence || exact H).
    split; [congruence|]. split; [unfold EVIDENCE_MAX_CHARS in H; lia|]. eauto.
  - rewrite (truncateEvidence_long _ H). unfold EVIDENCE_MAX_CHARS in *.
    split; [simpl; congruence|]. split.
    + rewrite length_app, length_firstn. change (length truncationMarker) with 12%nat. lia.
    + exists (u :: e). split; [reflexivity|].
      rewrite firstn_app, firstn_firstn, Nat.min_id, length_firstn.
      replace (500 - Nat.min 500 (length (u :: e)))%nat with 0%nat by lia.
      now rewrite app_nil_r.
Qed.



Lemma code_inj (c c' : OWASPCategory) : code c = code c' -> c = c'.
Proof. destruct c, c'; intros H; try reflexivity; discriminate H. Qed.




Lemma inheritedToString_not_code (n : jsstring) (c : OWASPCategory) :
  Js.inheritedToString n <> code c.
Proof.
  unfold Js.inheritedToString. repeat case_bool_decide; destruct c; discriminate.
Qed.


Lemma groupByOWASP_unfold (fs : list NormalizedFinding) :
  groupByOWASP fs = fold_left groupStep fs (Some emptyGroups).
Proof. reflexivity. Qed.

Lemma groupsOf_initial : groupsOf [] emptyGroups.
Proof.
  split.
  - intros c. destruct c; vm_compute; reflexivity.
  - intros k Hk. apply not_elem_of_list_to_map_1. intros Hin.
    apply list_elem_of_In in Hin.
    change (In k (List.map fst (List.map (fun c => (code c, @nil NormalizedFinding))
                                  all_categories))) in Hin.
    rewrite List.map_map in Hin. cbn [List.map all_categories fst In] in Hin.
    repeat (destruct Hin as [Hin|Hin]; [eapply Hk; symmetry; exact Hin|]).
    destruct Hin.
Qed.

Lemma groupsOf_step (seen : list NormalizedFinding)
    (groups : gmap jsstring (list NormalizedFinding)) (f : NormalizedFinding)
    (c : OWASPCategory) :
  groupsOf seen groups -> owaspCategory f = VStr (code c) ->
  exists groups', groupStep (Some groups) f = Some groups'
                  /\ groupsOf (seen ++ [f]) groups'.
Proof.
  intros [Hg Hn] Hc. unfold groupStep. rewrite Hc. cbn [categoryToString].
  unfold Js.get. rewrite (Hg c). eexists. split; [reflexivity|]. split.
  - intros c'. rewrite List.filter_app. cbn [List.filter]. rewrite Hc.
    destruct (decide (c = c')) as [<-|Hne].
    + rewrite lookup_insert_eq. rewrite bool_decide_eq_true_2 by reflexivity.
      reflexivity.
    + rewrite lookup_insert_ne by (intros H; now apply code_inj in H).
      rewrite bool_decide_eq_false_2
        by (intros H; injection H as H; now apply code_inj in H).
      now rewrite app_nil_r.
  - intros k Hk. rewrite lookup_insert_ne by (intros H; now apply (Hk c)).
    now apply Hn.
Qed.

Lemma groupStep_invalid (seen : list NormalizedFinding)
    (groups : gmap jsstring (list NormalizedFinding)) (f : NormalizedFinding) :
  groupsOf seen groups -> (forall c, owaspCategory f <> VStr (code c)) ->
  groupStep (Some groups) f = None.
Proof.
  intros [_ Hn] Hf. unfold groupStep.
  assert (Hk : groups !! categoryToString (owaspCategory f) = None).
  { apply Hn. intros c Hc. destruct (owaspCategory f) as [s|n]; cbn in Hc.
    - apply (Hf c). now rewrite Hc.
    - now apply inheritedToString_not_code in Hc. }
  cbv zeta. unfold Js.get. rewrite Hk. now case_bool_decide.
Qed.

Lemma groupStep_none (fs : list NormalizedFinding) : fold_left groupStep fs None = None.
Proof. induction fs as [|f fs IH]; [reflexivity|exact IH]. Qed.

Lemma category_valid_dec (f : NormalizedFinding) :
  (exists c, owaspCategory f = VStr (code c))
  \/ (forall c, owaspCategory f <> VStr (code c)).
Proof.
  destruct (decide (Exists (fun c => owaspCategory f = VStr (code c)) all_categories))
    as [H|H].
  - left. apply List.Exists_exists in H. destruct H as (c & _ & Hc). eauto.
  - right. intros c Hc. apply H, List.Exists_exists. exists c. split; [|exact Hc].
    destruct c; simpl; tauto.
Qed.

(** The loop either runs through, keeping the groups, or stops at a finding
    outside the ten codes. *)
Lemma groupStep_fold (fs seen : list NormalizedFinding)
    (groups : gmap jsstring (list NormalizedFinding)) :
  groupsOf seen groups ->
  ((forall f, In f fs -> exists c, owaspCategory f = VStr (code c))
   /\ exists groups', fold_left groupStep fs (Some groups) = Some groups'
                      /\ groupsOf (seen ++ fs) groups')
  \/ ((exists f, In f fs /\ forall c, owaspCategory f <> VStr (code c))
      /\ fold_left groupStep fs (Some groups) = None).
Proof.
  revert seen groups. induction fs as [|f fs IH]; intros seen groups Hinv.
  - left. split; [intros f []|]. exists groups. now rewrite app_nil_r.
  - cbn [fold_left]. destruct (category_valid_dec f) as [[c Hc]|Hf].
    + destruct (groupsOf_step seen groups f c Hinv Hc) as (g & -> & Hinv').
      destruct (IH _ _ Hinv') as [[Hall (g' & Hfold & Hfin)]|[(x & Hx & Hbad) Hfold]].
      * left. split; [intros x [<-|Hx]; eauto|].
        exists g'. split; [exact Hfold|]. now rewrite <- app_assoc in Hfin.
      * right. split; [|exact Hfold]. exists x. split; [now right|exact Hbad].
    + right. rewrite (groupStep_invalid seen groups f Hinv Hf).
      split; [|apply groupStep_none]. exists f. split; [now left|exact Hf].
Qed.

(** X14: Grouping by category succeeds exactly when every finding carries one of
    the ten codes; it then has one group per code, holding the findings of
    that category in their order, and no other group.  One finding outside
    the ten codes makes the whole call throw. *)
Theorem groupByOWASP_spec (fs : list NormalizedFinding) :
  ((forall f, In f fs -> exists c, owaspCategory f = VStr (code c))
   <-> groupByOWASP fs <> None)
  /\ forall groups, groupByOWASP fs = Some groups -> groupsOf fs groups.
Proof.
  rewrite groupByOWASP_unfold.
  destruct (groupStep_fold fs [] emptyGroups groupsOf_initial)
    as [[Hall (g & Hfold & Hfin)]|[(x & Hx & Hbad) Hfold]]; rewrite Hfold.
  - split; [split; [discriminate|intros _; exact Hall]|].
    intros groups H. now injection H as <-.
  - split; [|discriminate]. split; [|congruence].
    intros Hall. destruct (Hall x Hx) as [c Hc]. now destruct (Hbad c).
Qed.

(** ** The reporter *)

Lemma postBatches_inv (post : list UpsertFindingBody -> Result (list jsstring))
    (bodies : list UpsertFindingBody) :
  forall fuel i allIds,
    (length bodies - i < fuel)%nat ->
    let r := postBatches fuel post bodies i allIds in
    Forall (fun b => (0 < length b <= BATCH_SIZE)%nat) (fst r)
    /\ match snd r with
       | Ok ids =>
           concat (fst r) = skipn i bodies
           /\ Forall (fun b => accepted (post b)) (fst r)
           /\ ids = allIds ++ concat (List.map (fun b => idsOf (post b)) (fst r))
           /\ length (fst r) = ((length bodies - i + 19) / 20)%nat
       | Err msg =>
           exists sent rejected rest,
             fst r = sent ++ [rejected]
             /\ post rejected = Err msg
             /\ Forall (fun b => accepted (post b)) sent
             /\ skipn i bodies = concat (fst r) ++ rest
       end.
Proof.
  induction fuel as [|fuel IH]; intros i allIds Hfuel; [lia|].
  cbn [postBatches]. cbv zeta.
  destruct (Nat.ltb_spec i (length bodies)) as [Hi|Hi].
  - assert (Hb : (0 < length (firstn BATCH_SIZE (skipn i bodies)) <= BATCH_SIZE)%nat).
    { rewrite length_firstn, length_skipn. unfold BATCH_SIZE. lia. }
    assert (Hsplit : skipn i bodies
                     = firstn BATCH_SIZE (skipn i bodies) ++ skipn (i + BATCH_SIZE) bodies).
    { rewrite (Nat.add_comm i), <- skipn_skipn. symmetry. apply firstn_skipn. }
    destruct (post (firstn BATCH_SIZE (skipn i bodies))) as [ids|msg] eqn:Hpost.
    + specialize (IH (i + BATCH_SIZE)%nat (allIds ++ ids)).
      cbv zeta in IH. destruct IH as [Hall Hres]; [unfold BATCH_SIZE; lia|].
      cbn [fst snd]. split; [now constructor|].
      destruct (snd (postBatches fuel post bodies (i + BATCH_SIZE) (allIds ++ ids)))
        as [ids'|msg'].
      * destruct Hres as (Hc & Hacc & Hids & Hlen). cbn [concat List.map length].
        split; [now rewrite Hc, <- Hsplit|].
        split; [constructor; [now exists ids|exact Hacc]|].
        split; [now rewrite Hids, Hpost, <- app_assoc|].
        rewrite Hlen. unfold BATCH_SIZE. clear - Hi.
        assert (Hd : forall m, (1 <= m)%nat -> ((m + 19) / 20 = S ((m - 20 + 19) / 20))%nat).
        { intros m Hm. destruct (Nat.le_gt_cases 20 m) as [H|H].
          - replace (m + 19)%nat with ((m - 20 + 19) + 1 * 20)%nat by lia.
            rewrite Nat.div_add by lia. lia.
          - replace (m - 20 + 19)%nat with 19%nat by lia.
            rewrite (Nat.div_small 19 20) by lia.
            symmetry. apply (Nat.div_unique _ _ _ (m - 1)); lia. }
        replace (length bodies - (i + 20))%nat with (length bodies - i - 20)%nat by lia.
        symmetry. apply Hd. lia.
      * destruct Hres as (sent & rejected & rest & Hs & Hrej & Hacc & Hrest).
        exists (firstn BATCH_SIZE (skipn i bodies) :: sent), rejected, rest.
        rewrite Hs. cbn [app concat]. repeat split; try assumption.
        -- constructor; [now exists ids|exact Hacc].
        -- etransitivity; [exact Hsplit|]. rewrite Hrest, Hs.
           now rewrite <- app_assoc.
    + cbn [fst snd]. split; [constructor; [exact Hb|constructor]|].
      exists [], (firstn BATCH_SIZE (skipn i bodies)), (skipn (i + BATCH_SIZE) bodies).
      cbn [app concat]. rewrite app_nil_r.
      split; [reflexivity|]. split; [exact Hpost|]. split; [constructor|exact Hsplit].
  - cbn [fst snd concat List.map length]. split; [constructor|].
    split; [symmetry; apply skipn_all2; lia|]. split; [constructor|].
    split; [now rewrite app_nil_r|].
    replace (length bodies - i)%nat with 0%nat by lia. reflexivity.
Qed.

(** X15: When the back end accepts every post, each failing finding is sent
    exactly once and in order, in batches of 1 to 20 bodies, ceil(n/20) of
    them, and the ids returned are the answers of the posts in order. *)
Theorem upsert_batches_when_accepted
    (post : list UpsertFindingBody -> Result (list jsstring)) (now : Z)
    (aid : jsstring) (findings : list NormalizedFinding) (diff : AuditDiff) :
  (forall b, accepted (post b)) ->
  let r := upsertFindings post now aid findings diff in
  concat (fst r) = findingBodies aid findings diff now
  /\ Forall (fun b => (0 < length b <= 20)%nat) (fst r)
  /\ length (fst r) = ((length (failedFindings findings) + 19) / 20)%nat
  /\ snd r = Ok (concat (List.map (fun b => idsOf (post b)) (fst r))).
Proof.
  intros Hok. cbv zeta. unfold upsertFindings.
  destruct (postBatches_inv post (findingBodies aid findings diff now)
              (S (length (findingBodies aid findings diff now))) 0 []) as [Hall Hres];
    [lia|]. cbv zeta in *.
  set (r := postBatches _ post _ 0 []) in *.
  destruct (snd r) as [ids|msg] eqn:Hsnd.
  - destruct Hres as (Hc & _ & Hids & Hlen). cbn [skipn app] in *.
    repeat split; try assumption.
    + rewrite Hlen, Nat.sub_0_r. unfold findingBodies, failedFindings.
      now rewrite length_map.
    + now rewrite Hids.
  - destruct Hres as (sent & rejected & rest & _ & Hrej & _).
    destruct (Hok rejected) as [ids Hids]. congruence.
Qed.


(** ** The orchestrator *)

Lemma runAudit_dry (cfg : OrchestratorConfig) (w : World) :
  cfg_dryRun cfg = true ->
  runAudit cfg w
  = ({| res_auditId := Js.lit "dry-run"; res_summary := summaryOf cfg w;
        res_findings := parse (w_raw w); res_diff := pendingDiff cfg w;
        res_errors := raw_errors (w_raw w) |},
     {| sent_batches := []; sent_events := [] |}).
Proof.
  intros H. unfold runAudit, summaryOf, pendingDiff. rewrite H. reflexivity.
Qed.

Lemma runAudit_real (cfg : OrchestratorConfig) (w : World) :
  cfg_dryRun cfg = false ->
  runAudit cfg w
  = (let pushed := pushResults w (summaryOf cfg w) (parse (w_raw w)) (pendingDiff cfg w) in
     ({| res_auditId := fst (fst (fst pushed)); res_summary := summaryOf cfg w;
         res_findings := parse (w_raw w); res_diff := snd (fst (fst pushed));
         res_errors :=
           match snd pushed with
           | Some msg =>
               raw_errors (w_raw w)
               ++ [Js.lit "Failed to push results to Convex: " ++ Js.lit "Error: " ++ msg]
           | None => raw_errors (w_raw w)
           end |},
      snd (fst pushed))).
Proof.
  intros H. unfold runAudit, summaryOf, pendingDiff. rewrite H. cbn [negb].
  destruct (pushResults _ _ _ _) as [[[aid diff] sent] failure]. reflexivity.
Qed.

(** What the guarded block leaves behind, by the first call that fails. *)
Lemma pushResults_cases (w : World) (summary : AuditSummary)
    (findings : list NormalizedFinding) (diff : AuditDiff) :
  match w_createAudit w summary with
  | Err msg =>
      pushResults w summary findings diff
      = (Js.lit "dry-run", diff, {| sent_batches := []; sent_events := [] |}, Some msg)
  | Ok id =>
      let upserted := upsertFindings (w_postFindings w) (w_upsertNow w) id findings
                        (setAuditId diff id) in
      match snd upserted, w_completeAudit w id summary with
      | Ok _, Ok _ =>
          pushResults w summary findings diff
          = (id, setAuditId diff id,
             {| sent_batches := fst upserted;
                sent_events := alertOnCriticals (w_alertNow w) (setAuditId diff id) |},
             None)
      | Err msg, _ | Ok _, Err msg =>
          pushResults w summary findings diff
          = (id, setAuditId diff id,
             {| sent_batches := fst upserted; sent_events := [] |}, Some msg)
      end
  end.
Proof.
  unfold pushResults. destruct (w_createAudit w summary) as [id|msg]; [|reflexivity].
  cbv zeta.
  destruct (snd (upsertFindings _ _ id findings (setAuditId diff id))) as [ids|msg];
    [|reflexivity].
  destruct (w_completeAudit w id summary) as [u|msg]; reflexivity.
Qed.

(** X17: A dry run sends nothing, reports the id [dry-run], does not look at
    the previous run (every failing finding is new and the delta is the
    score), and returns the runner's errors as they are. *)
Theorem dry_run_isolated (cfg : OrchestratorConfig) (w : World) :
  cfg_dryRun cfg = true ->
  snd (runAudit cfg w) = {| sent_batches := []; sent_events := [] |}
  /\ res_auditId (fst (runAudit cfg w)) = Js.lit "dry-run"
  /\ res_errors (fst (runAudit cfg w)) = raw_errors (w_raw w)
  /\ previousAuditId (res_diff (fst (runAudit cfg w))) = None
  /\ newFindings (res_diff (fst (runAudit cfg w))) = failedFindings (parse (w_raw w))
  /\ riskScoreDelta (res_diff (fst (runAudit cfg w)))
     = hostRiskScore (res_summary (fst (runAudit cfg w))).
Proof.
  intros H. rewrite (runAudit_dry cfg w H). cbn [fst snd res_auditId res_errors
    res_diff res_summary]. unfold pendingDiff, summaryOf. rewrite H. cbn [negb].
  repeat split.
Qed.

(** X18: Persist, then alert: an event goes out only in a real run in which the
    audit record was created, every failing finding was sent under the new
    id, and the record was completed; the run then reports no push error,
    and the event names the new id. *)
Theorem alert_only_after_persisting (cfg : OrchestratorConfig) (w : World) :
  sent_events (snd (runAudit cfg w)) <> [] ->
  let r := fst (runAudit cfg w) in
  cfg_dryRun cfg = false
  /\ w_createAudit w (res_summary r) = Ok (res_auditId r)
  /\ concat (sent_batches (snd (runAudit cfg w)))
     = findingBodies (res_auditId r) (res_findings r) (res_diff r) (w_upsertNow w)
  /\ accepted (w_completeAudit w (res_auditId r) (res_summary r))
  /\ res_errors r = raw_errors (w_raw w)
  /\ auditId (res_diff r) = res_auditId r
  /\ Forall (fun ev => sourceId ev = Some (res_auditId r))
       (sent_events (snd (runAudit cfg w))).
Proof.
  cbv zeta. destruct (cfg_dryRun cfg) eqn:Hdry.
  { rewrite (runAudit_dry cfg w Hdry). cbn. congruence. }
  rewrite (runAudit_real cfg w Hdry). cbv zeta.
  cbn [fst snd res_auditId res_summary res_findings res_diff res_errors].
  pose proof (pushResults_cases w (summaryOf cfg w) (parse (w_raw w)) (pendingDiff cfg w))
    as Hc.
  destruct (w_createAudit w (summaryOf cfg w)) as [id|msg] eqn:Hcreate.
  2:{ rewrite Hc. cbn. congruence. }
  cbv zeta in Hc.
  pose proof (postBatches_inv (w_postFindings w)
                (findingBodies id (parse (w_raw w)) (setAuditId (pendingDiff cfg w) id)
                   (w_upsertNow w))
                (S (length (findingBodies id (parse (w_raw w))
                              (setAuditId (pendingDiff cfg w) id) (w_upsertNow w)))) 0 [])
    as Hinv.
  destruct Hinv as [_ Hinv]; [lia|]. cbv zeta in Hinv.
  fold (upsertFindings (w_postFindings w) (w_upsertNow w) id (parse (w_raw w))
          (setAuditId (pendingDiff cfg w) id)) in Hinv.
  destruct (snd (upsertFindings _ _ id _ (setAuditId (pendingDiff cfg w) id)))
    as [ids|msg].
  2:{ rewrite Hc. cbn. congruence. }
  destruct (w_completeAudit w id (summaryOf cfg w)) as [u|msg] eqn:Hcomplete.
  2:{ rewrite Hc. cbn. congruence. }
  rewrite Hc. cbn [fst snd sent_events sent_batches auditId setAuditId].
  intros Hev. split; [reflexivity|]. split; [reflexivity|].
  destruct Hinv as (Hconcat & _). rewrite skipn_O in Hconcat.
  split; [exact Hconcat|]. split; [now exists u|]. split; [reflexivity|].
  split; [reflexivity|].
  unfold alertOnCriticals in *. cbn [newCriticals setAuditId auditId] in *.
  destruct (length (newCriticals (pendingDiff cfg w)) =? 0)%nat; [congruence|].
  repeat constructor.
Qed.

(** X19: The in-memory result does not depend on the persistence back end: two
    runs on the same inputs return the same findings, the same summary and
    the same diff up to its audit id, whatever the persistence calls answer;
    and the errors are the runner's errors followed by at most one push
    error. *)
Theorem result_independent_of_persistence (cfg : OrchestratorConfig) (w w' : World) :
  sameInputs w w' ->
  res_findings (fst (runAudit cfg w)) = res_findings (fst (runAudit cfg w'))
  /\ res_summary (fst (runAudit cfg w)) = res_summary (fst (runAudit cfg w'))
  /\ setAuditId (res_diff (fst (runAudit cfg w))) []
     = setAuditId (res_diff (fst (runAudit cfg w'))) []
  /\ exists pushErrors,
       res_errors (fst (runAudit cfg w)) = raw_errors (w_raw w) ++ pushErrors
       /\ (length pushErrors <= 1)%nat.
Proof.
  intros (Hv & Hp & Hr & Hs & Hf).
  assert (Hd : pendingDiff cfg w = pendingDiff cfg w').
  { unfold pendingDiff. now rewrite Hp, Hr. }
  assert (Hsum : summaryOf cfg w = summaryOf cfg w').
  { unfold summaryOf, summarize. now rewrite Hd, Hr, Hv, Hs, Hf. }
  assert (Hdiff : forall v, setAuditId (snd (fst (fst
                     (pushResults v (summaryOf cfg v) (parse (w_raw v)) (pendingDiff cfg v)))))
                     [] = setAuditId (pendingDiff cfg v) []).
  { intros v.
    pose proof (pushResults_cases v (summaryOf cfg v) (parse (w_raw v)) (pendingDiff cfg v))
      as Hc.
    destruct (w_createAudit v (summaryOf cfg v)) as [id|msg]; [|now rewrite Hc].
    cbv zeta in Hc.
    destruct (snd (upsertFindings _ _ id _ _)) as [ids|msg];
      [destruct (w_completeAudit v id (summaryOf cfg v)) as [u|msg]|];
      now rewrite Hc. }
  destruct (cfg_dryRun cfg) eqn:Hdry.
  - rewrite !runAudit_dry by exact Hdry. cbn [fst res_findings res_summary res_diff
      res_errors]. rewrite Hd, Hsum, Hr. repeat split.
    exists []. rewrite app_nil_r. split; [reflexivity|simpl; lia].
  - rewrite !runAudit_real by exact Hdry. cbv zeta.
    cbn [fst res_findings res_summary res_diff res_errors].
    rewrite !Hdiff, Hd, Hsum, Hr. repeat split.
    destruct (snd (pushResults w _ _ _)) as [msg|].
    + eexists [_]. split; [reflexivity|simpl; lia].
    + exists []. rewrite app_nil_r. split; [reflexivity|simpl; lia].
Qed.


(** The summary agrees with the diff returned beside it: the two counts are
    the sizes of the new and resolved buckets, the delta is the diff's,
    which is the score minus the previous score (the score itself in a dry
    run or without a previous run), and the duration is the difference of
    the two clock readings. *)
Lemma summary_agrees_with_diff (cfg : OrchestratorConfig) (w : World) :
  let r := fst (runAudit cfg w) in
  let s := res_summary r in
  newFindingsCount s = Z.of_nat (length (newFindings (res_diff r)))
  /\ resolvedFindingsCount s = Z.of_nat (length (resolvedFindings (res_diff r)))
  /\ sum_riskScoreDelta s = riskScoreDelta (res_diff r)
  /\ riskScoreDelta (res_diff r)
     = hostRiskScore s
       - match (if cfg_dryRun cfg then None else w_previous w) with
         | Some p => prev_hostRiskScore p
         | None => 0
         end
  /\ durationMs s = finishedAt s - startedAt s.
Proof.
  cbv zeta.
  assert (Hbuckets : forall d id, newFindings (setAuditId d id) = newFindings d
                       /\ resolvedFindings (setAuditId d id) = resolvedFindings d
                       /\ riskScoreDelta (setAuditId d id) = riskScoreDelta d)
    by (intros; repeat split).
  assert (Hres : newFindings (res_diff (fst (runAudit cfg w))) = newFindings (pendingDiff cfg w)
                 /\ resolvedFindings (res_diff (fst (runAudit cfg w)))
                    = resolvedFindings (pendingDiff cfg w)
                 /\ riskScoreDelta (res_diff (fst (runAudit cfg w)))
                    = riskScoreDelta (pendingDiff cfg w)
                 /\ res_summary (fst (runAudit cfg w)) = summaryOf cfg w).
  { destruct (cfg_dryRun cfg) eqn:Hdry.
    - rewrite (runAudit_dry cfg w Hdry). repeat split.
    - rewrite (runAudit_real cfg w Hdry). cbv zeta. cbn [fst res_diff res_summary].
      pose proof (pushResults_cases w (summaryOf cfg w) (parse (w_raw w))
                    (pendingDiff cfg w)) as Hc.
      destruct (w_createAudit w (summaryOf cfg w)) as [id|msg];
        [|rewrite Hc; repeat split].
      cbv zeta in Hc.
      destruct (snd (upsertFindings _ _ id _ _)) as [ids|msg];
        [destruct (w_completeAudit w id (summaryOf cfg w)) as [u|msg]|];
        rewrite Hc; repeat split. }
  destruct Hres as (-> & -> & -> & ->).
  unfold summaryOf, summarize.
  cbn [newFindingsCount resolvedFindingsCount sum_riskScoreDelta hostRiskScore
         durationMs finishedAt startedAt].
  repeat split. unfold pendingDiff, compute.
  destruct (cfg_dryRun cfg); cbn [negb]; [cbn; lia|].
  destruct (w_previous w); cbn; lia.
Qed.

(** ** The command line *)

Lemma main_unfold (run : OrchestratorConfig -> RunOutcome) (values : CliValues)
    (env : ProcessEnv) :
  main run values env
  = if v_help values then 0
    else match parseAuditType (v_type values), parseTriggerSource (v_triggeredBy values) with
         | Some t, Some tb =>
             if negb (v_dryRun values) && negb (Js.truthy (envConvexUrl env)) then 1
             else if negb (v_dryRun values) && negb (Js.truthy (envApiKey env)) then 1
             else exitAfterRun (v_dryRun values) (run (cliConfig values env t tb))
         | _, _ => 1
         end.
Proof.
  unfold main. destruct (v_help values); [reflexivity|].
  destruct (parseAuditType (v_type values)); [|reflexivity].
  destruct (parseTriggerSource (v_triggeredBy values)); reflexivity.
Qed.

(** X21: The process ends with 0, 1 or 2, and with 2 exactly when help was not
    asked for, the type and the trigger are valid, the run is not a dry run,
    the URL and the key are set, and the audit returned with at least one
    new critical finding. *)
Theorem main_exits_two_iff (run : OrchestratorConfig -> RunOutcome)
    (values : CliValues) (env : ProcessEnv) :
  (main run values env = 0 \/ main run values env = 1 \/ main run values env = 2)
  /\ (main run values env = 2
      <-> v_help values = false /\ v_dryRun values = false
          /\ envConvexUrl env <> [] /\ envApiKey env <> []
          /\ exists t tb r,
               parseAuditType (v_type values) = Some t
               /\ parseTriggerSource (v_triggeredBy values) = Some tb
               /\ run (cliConfig values env t tb) = Returned r
               /\ newCriticals (res_diff r) <> []).
Proof.
  rewrite main_unfold.
  destruct (v_help values); [split; [auto|]; split; [discriminate|intros [H _]; discriminate]|].
  destruct (parseAuditType (v_type values)) as [t|];
    [|split; [auto|]; split; [discriminate|intros (_ & _ & _ & _ & ? & ? & ? & H & _);
                                             discriminate]].
  destruct (parseTriggerSource (v_triggeredBy values)) as [tb|];
    [|split; [auto|]; split; [discriminate|intros (_ & _ & _ & _ & ? & ? & ? & _ & H & _);
                                             discriminate]].
  destruct (v_dryRun values) eqn:Hdry; cbn [negb andb].
  - unfold exitAfterRun. destruct (run (cliConfig values env t tb)) as [r|err].
    + rewrite andb_false_r. split; [auto|]. split; [discriminate|].
      intros (_ & H & _). discriminate.
    + split; [auto|]. split; [discriminate|]. intros (_ & H & _). discriminate.
  - destruct (envConvexUrl env) as [|u url] eqn:Hurl; cbn [Js.truthy negb].
    { split; [auto|]. split; [discriminate|]. intros (_ & _ & H & _). congruence. }
    destruct (envApiKey env) as [|k key] eqn:Hkey; cbn [Js.truthy negb].
    { split; [auto|]. split; [discriminate|]. intros (_ & _ & _ & H & _). congruence. }
    unfold exitAfterRun. destruct (run (cliConfig values env t tb)) as [r|err] eqn:Hrun.
    + destruct (newCriticals (res_diff r)) as [|c cs] eqn:Hc; cbn.
      * split; [auto|]. split; [discriminate|].
        intros (_ & _ & _ & _ & t' & tb' & r' & Ht & Htb & Hr & Hn).
        injection Ht as <-. injection Htb as <-. rewrite Hrun in Hr.
        injection Hr as <-. congruence.
      * split; [auto|]. split; [|reflexivity]. intros _.
        repeat (split; [congruence|]). exists t, tb, r. rewrite Hc.
        split; [reflexivity|]. split; [reflexivity|]. split; [exact Hrun|].
        intros Hnil. discriminate Hnil.
    + split; [auto|]. split; [discriminate|].
      intros (_ & _ & _ & _ & t' & tb' & r' & Ht & Htb & Hr & _).
      injection Ht as <-. injection Htb as <-. congruence.
Qed.

(** X22: Arguments are checked before anything runs: with [--help] the status is
    0 whatever else is given; otherwise an unknown type or trigger, or a
    real run without URL or without key, ends with 1 whatever the audit
    would have done.  A dry run needs neither URL nor key and ends with 0
    whenever the audit returns. *)
Theorem main_checks_before_running (run : OrchestratorConfig -> RunOutcome)
    (values : CliValues) (env : ProcessEnv) :
  (v_help values = true -> main run values env = 0)
  /\ (v_help values = false ->
      (parseAuditType (v_type values) = None
       \/ parseTriggerSource (v_triggeredBy values) = None
       \/ (v_dryRun values = false
           /\ (envConvexUrl env = [] \/ envApiKey env = []))) ->
      main run values env = 1)
  /\ (v_help values = false -> v_dryRun values = true ->
      forall t tb r,
        parseAuditType (v_type values) = Some t ->
        parseTriggerSource (v_triggeredBy values) = Some tb ->
        run (cliConfig values env t tb) = Returned r ->
        main run values env = 0).
Proof.
  rewrite main_unfold. split; [intros ->; reflexivity|]. split.
  - intros -> [H|[H|[Hdry H]]].
    + now rewrite H.
    + rewrite H. now destruct (parseAuditType (v_type values)).
    + destruct (parseAuditType (v_type values)); [|reflexivity].
      destruct (parseTriggerSource (v_triggeredBy values)); [|reflexivity].
      rewrite Hdry. cbn [negb andb]. destruct H as [-> | ->]; cbn [Js.truthy negb];
        [reflexivity|]. now destruct (negb (Js.truthy (envConvexUrl env))).
  - intros -> Hdry t tb r -> -> Hr. rewrite Hdry, Hr. cbn [negb andb].
    unfold exitAfterRun. now rewrite andb_false_r.
Qed.

(** ** [trim] and [split] *)

Lemma trimStart_head (s : jsstring) (u : N) (t : jsstring) :
  Js.trimStart s = u :: t -> Js.isWhiteSpace u = false.
Proof.
  induction s as [|v s IH]; simpl; [discriminate|].
  destruct (Js.isWhiteSpace v) eqn:Hv; [exact IH|]. intros H. now injection H as <- _.
Qed.

Lemma trimStart_nonws (u : N) (t : jsstring) :
  Js.isWhiteSpace u = false -> Js.trimStart (u :: t) = u :: t.
Proof. intros H. simpl. now rewrite H. Qed.

Lemma trimStart_snoc (l : jsstring) (u : N) :
  Js.isWhiteSpace u = false -> Js.trimStart (l ++ [u]) = Js.trimStart l ++ [u].
Proof.
  intros H. induction l as [|v l IH]; simpl; [now rewrite H|].
  destruct (Js.isWhiteSpace v); [exact IH|reflexivity].
Qed.

Lemma trimStart_In (s : jsstring) (x : N) : In x (Js.trimStart s) -> In x s.
Proof.
  induction s as [|v s IH]; simpl; [tauto|].
  destruct (Js.isWhiteSpace v); [intros H; right; now apply IH|exact (fun H => H)].
Qed.

Lemma trim_In (s : jsstring) (x : N) : In x (Js.trim s) -> In x s.
Proof.
  unfold Js.trim. intros H. apply in_rev, trimStart_In in H.
  apply in_rev in H. now apply trimStart_In.
Qed.

(** A trimmed string is empty or has no whitespace at either end. *)
Lemma trim_ends (s : jsstring) :
  Js.trim s = []
  \/ ((exists u t, Js.trim s = u :: t /\ Js.isWhiteSpace u = false)
      /\ (exists t u, Js.trim s = t ++ [u] /\ Js.isWhiteSpace u = false)).
Proof.
  unfold Js.trim. destruct (Js.trimStart s) as [|u t] eqn:Ha; [left; reflexivity|].
  right. pose proof (trimStart_head _ _ _ Ha) as Hu.
  cbn [rev]. rewrite (trimStart_snoc _ _ Hu), rev_app_distr. cbn [rev app].
  split; [eauto|].
  destruct (Js.trimStart (rev t)) as [|v r] eqn:Hb.
  - exists [], u. split; [reflexivity|exact Hu].
  - exists (u :: rev r), v. cbn [rev]. split; [reflexivity|].
    exact (trimStart_head _ _ _ Hb).
Qed.

Lemma trim_id (m : jsstring) :
  (exists u t, m = u :: t /\ Js.isWhiteSpace u = false) ->
  (exists t u, m = t ++ [u] /\ Js.isWhiteSpace u = false) ->
  Js.trim m = m.
Proof.
  intros (u & t & Hm & Hu) (t' & v & Hm' & Hv). unfold Js.trim.
  rewrite Hm, (trimStart_nonws _ _ Hu), <- Hm, Hm', rev_app_distr. cbn [rev app].
  rewrite (trimStart_nonws _ _ Hv). cbn [rev]. now rewrite rev_involutive.
Qed.

Lemma split_nonempty (sep : N) (s : jsstring) : Js.split sep s <> [].
Proof.
  destruct s as [|u s]; simpl; [discriminate|].
  destruct (u =? sep)%N; [discriminate|]. destruct (Js.split sep s); discriminate.
Qed.

Lemma split_no_sep (sep : N) (s p : jsstring) :
  In p (Js.split sep s) -> ~ In sep p.
Proof.
  revert p. induction s as [|u s IH]; intros p; simpl.
  - intros [<-|[]] [].
  - destruct (N.eqb_spec u sep) as [->|Hne].
    + intros [<-|H]; [intros []|now apply IH].
    + destruct (Js.split sep s) as [|p0 ps].
      * intros [<-|[]] [H|[]]. congruence.
      * intros [<-|H].
        -- intros [Hu|Hin]; [congruence|]. apply (IH p0); [now left|exact Hin].
        -- apply IH. now right.
Qed.

Lemma split_single (sep : N) (p : jsstring) : ~ In sep p -> Js.split sep p = [p].
Proof.
  induction p as [|u p IH]; intros H; simpl; [reflexivity|].
  destruct (N.eqb_spec u sep) as [->|Hne]; [destruct H; now left|].
  rewrite IH; [reflexivity|]. intros Hin. apply H. now right.
Qed.

Lemma split_app (sep : N) (p rest : jsstring) :
  ~ In sep p -> Js.split sep (p ++ sep :: rest) = p :: Js.split sep rest.
Proof.
  induction p as [|u p IH]; intros H; simpl.
  - now rewrite N.eqb_refl.
  - destruct (N.eqb_spec u sep) as [->|Hne]; [destruct H; now left|].
    rewrite IH; [reflexivity|]. intros Hin. apply H. now right.
Qed.

Lemma split_join (sep : N) (parts : list jsstring) :
  parts <> [] -> Forall (fun p => ~ In sep p) parts ->
  Js.split sep (Js.join [sep] parts) = parts.
Proof.
  induction parts as [|p parts IH]; intros Hne Hall; [congruence|].
  inversion Hall as [|? ? Hp Hrest]; subst.
  destruct parts as [|q parts]; cbn [Js.join].
  - now apply split_single.
  - cbn [app]. rewrite (split_app _ _ _ Hp). f_equal. now apply IH.
Qed.

(** X23: The modules read from [--modules] are names: not empty, without comma,
    without whitespace at the ends.  Joining names with commas and reading
    them again gives the same names; so the [--modules] argument the runner
    builds for a custom audit reads back as the configured modules. *)
Theorem parseModules_round_trip (s : jsstring) (ms : list jsstring)
    (cfg : OrchestratorConfig) :
  Forall moduleName ms ->
  Forall moduleName (parseModules s)
  /\ parseModules (Js.join (Js.lit ",") ms) = ms
  /\ (cfg_type cfg = custom_audit -> cfg_modules cfg = Some ms -> ms <> [] ->
      exists joined,
        buildSecureClawArgs cfg
        = List.map Js.lit ["secureclaw"; "audit"; "--output"; "json"]%string
          ++ [Js.lit "--modules"; joined]
        /\ parseModules joined = ms).
Proof.
  intros Hms.
  assert (Hround : parseModules (Js.join (Js.lit ",") ms) = ms).
  { unfold parseModules. change (Js.lit ",") with [44%N].
    destruct ms as [|m ms']; [reflexivity|].
    rewrite split_join; [|discriminate|].
    - rewrite filter_true_id.
      + rewrite <- (List.map_id (m :: ms')) at 2. apply List.map_ext_in.
        intros a Ha. rewrite List.Forall_forall in Hms.
        destruct (Hms a Ha) as (_ & _ & H1 & H2). now apply trim_id.
      + intros a Ha. apply in_map_iff in Ha. destruct Ha as (b & <- & Hb).
        rewrite List.Forall_forall in Hms. destruct (Hms b Hb) as (Hne & _ & H1 & H2).
        rewrite trim_id by assumption. now apply truthy_nonempty.
    - eapply List.Forall_impl; [|exact Hms]. intros a (_ & H & _). exact H. }
  split; [|split; [exact Hround|]].
  - unfold parseModules. apply List.Forall_forall. intros m Hm.
    apply filter_In in Hm. destruct Hm as [Hm Ht]. apply truthy_nonempty in Ht.
    apply in_map_iff in Hm. destruct Hm as (p & <- & Hp).
    split; [exact Ht|]. split.
    + intros H. apply trim_In in H. exact (split_no_sep _ _ _ Hp H).
    + destruct (trim_ends p) as [H|H]; [congruence|exact H].
  - intros Ht Hm Hne. unfold buildSecureClawArgs. rewrite Ht, Hm.
    destruct ms as [|m ms']; [congruence|]. cbn [length Nat.ltb Nat.leb].
    eexists. split; [reflexivity|exact Hround].
Qed.


(** X25: One slash at the end of the configured base URL is dropped, and only
    one: a base with and without a final slash address the same
    endpoints. *)
Theorem endpoint_ignores_one_trailing_slash (u path : jsstring) :
  (forall t, u <> t ++ Js.lit "/") ->
  reporterUrl (u ++ Js.lit "/") path = u ++ path
  /\ reporterUrl u path = u ++ path
  /\ securityEventsUrl (u ++ Js.lit "/") = securityEventsUrl u
  /\ reporterUrl (u ++ Js.lit "//") path = u ++ Js.lit "/" ++ path.
Proof.
  intros Hu.
  assert (Hstrip : forall v, Js.stripTrailingSlash (v ++ Js.lit "/") = v).
  { intros v. unfold Js.stripTrailingSlash. change (Js.lit "/") with [47%N].
    rewrite rev_app_distr. cbn [rev app]. apply rev_involutive. }
  assert (Hkeep : Js.stripTrailingSlash u = u).
  { unfold Js.stripTrailingSlash. destruct (rev u) as [|x r] eqn:Hr; [reflexivity|].
    destruct (N.eqb_spec x 47%N) as [->|Hne].
    - destruct (Hu (rev r)). change (Js.lit "/") with [47%N].
      rewrite <- (rev_involutive u), Hr. reflexivity.
    - destruct x as [|x]; [reflexivity|].
      repeat (destruct x as [x|x|]; try reflexivity). congruence. }
  unfold reporterUrl, securityEventsUrl. rewrite Hstrip, Hkeep.
  repeat split.
  change (Js.lit "//") with (Js.lit "/" ++ Js.lit "/").
  rewrite app_assoc, Hstrip. now rewrite <- app_assoc.
Qed.

(** ** The runner *)


Lemma lastJsonLine_step {A} (parseJson : jsstring -> option A) (l : jsstring)
    (rest : list jsstring) :
  lastJsonLine parseJson (l :: rest)
  = match jsonCandidate parseJson l with
    | Some parsed => Some parsed
    | None => lastJsonLine parseJson rest
    end.
Proof.
  cbn [lastJsonLine]. unfold jsonCandidate.
  now destruct (Js.startsWith (Js.lit "{") (Js.trim l)).
Qed.

Lemma lastJsonLine_first {A} (parseJson : jsstring -> option A) (ls : list jsstring) :
  match lastJsonLine parseJson ls with
  | Some p =>
      exists pre l post, ls = pre ++ l :: post
                         /\ Forall (fun x => jsonCandidate parseJson x = None) pre
                         /\ jsonCandidate parseJson l = Some p
  | None => Forall (fun x => jsonCandidate parseJson x = None) ls
  end.
Proof.
  induction ls as [|l ls IH]; [constructor|].
  rewrite lastJsonLine_step. destruct (jsonCandidate parseJson l) as [p|] eqn:Hl.
  - exists [], l, ls. repeat split; [constructor|exact Hl].
  - destruct (lastJsonLine parseJson ls) as [p|].
    + destruct IH as (pre & x & post & -> & Hpre & Hx).
      exists (l :: pre), x, post. repeat split; [now constructor|exact Hx].
    + now constructor.
Qed.

(** X27: The recovery scan over the lines of the output takes the last line
    that, trimmed, starts with a brace and parses; it finds nothing exactly
    when no line does. *)
Theorem recovery_takes_last_json_line {A} (parseJson : jsstring -> option A)
    (lines : list jsstring) :
  match lastJsonLine parseJson (rev lines) with
  | Some p =>
      exists before line after,
        lines = before ++ line :: after
        /\ jsonCandidate parseJson line = Some p
        /\ Forall (fun l => jsonCandidate parseJson l = None) after
  | None => Forall (fun l => jsonCandidate parseJson l = None) lines
  end.
Proof.
  pose proof (lastJsonLine_first parseJson (rev lines)) as H.
  destruct (lastJsonLine parseJson (rev lines)) as [p|].
  - destruct H as (pre & l & post & Hrev & Hpre & Hl).
    exists (rev post), l, (rev pre). split; [|split; [exact Hl|]].
    + rewrite <- (rev_involutive lines), Hrev, rev_app_distr. cbn [rev].
      now rewrite <- app_assoc.
    + apply List.Forall_forall. intros x Hx. apply in_rev in Hx.
      rewrite List.Forall_forall in Hpre. now apply Hpre.
  - apply List.Forall_forall. intros x Hx. rewrite List.Forall_forall in H.
    apply H. now apply in_rev in Hx.
Qed.

Lemma pushOutcome_fold (parseJson : jsstring -> option CustomCheckResult)
    (completed : list (jsstring * ProcessResult))
    (results : list CustomCheckResult) (errors : list jsstring) :
  fold_left (pushOutcome parseJson) completed (results, errors)
  = (results ++ outcomeResults parseJson completed,
     errors ++ outcomeErrors parseJson completed).
Proof.
  revert results errors. induction completed as [|d ds IH]; intros results errors.
  - cbn. now rewrite !app_nil_r.
  - cbn [fold_left outcomeResults outcomeErrors flat_map].
    unfold pushOutcome at 2. cbn [fst snd].
    destruct (checkOutcome parseJson (fst d) (snd d)) as [p|msg];
      rewrite IH; cbn [app]; now rewrite <- ?app_assoc, ?app_nil_r.
Qed.



Lemma outcomes_Permutation (parseJson : jsstring -> option CustomCheckResult)
    (completed completed' : list (jsstring * ProcessResult)) :
  Permutation completed completed' ->
  Permutation (outcomeResults parseJson completed) (outcomeResults parseJson completed')
  /\ Permutation (outcomeErrors parseJson completed) (outcomeErrors parseJson completed').
Proof.
  intros H. unfold outcomeResults, outcomeErrors.
  split; now apply Permutation_flat_map.
Qed.

(** X29: The order in which the check scripts complete changes the order of the
    results and of the errors and nothing else: the findings of the run are
    the same up to order, and the score, the severity counts and the two
    check counters are the same. *)
Theorem completion_order_irrelevant
    (parseJson : jsstring -> option CustomCheckResult) (checksDir : jsstring)
    (cfg : OrchestratorConfig) (dir : Readdir)
    (upstream : option SecureClawOutput * list jsstring)
    (completed completed' : list (jsstring * ProcessResult)) :
  Permutation completed completed' ->
  let raw := run upstream (runCustomChecks parseJson checksDir cfg dir completed) in
  let raw' := run upstream (runCustomChecks parseJson checksDir cfg dir completed') in
  Permutation (raw_errors raw) (raw_errors raw')
  /\ Permutation (parse raw) (parse raw')
  /\ computeRiskScore (parse raw) = computeRiskScore (parse raw')
  /\ countBySeverity (parse raw) = countBySeverity (parse raw')
  /\ getTotalChecksRun raw = getTotalChecksRun raw'
  /\ getTotalChecksPassed raw = getTotalChecksPassed raw'.
Proof.
  intros Hperm. cbv zeta.
  assert (Hres : Permutation
                   (fst (runCustomChecks parseJson checksDir cfg dir completed))
                   (fst (runCustomChecks parseJson checksDir cfg dir completed'))
                 /\ Permutation
                      (snd (runCustomChecks parseJson checksDir cfg dir completed))
                      (snd (runCustomChecks parseJson checksDir cfg dir completed'))).
  { unfold runCustomChecks. destruct dir as [files|err]; [|split; reflexivity].
    destruct (cfg_dryRun cfg); [split; reflexivity|].
    rewrite !pushOutcome_fold. cbn [fst snd app].
    now apply outcomes_Permutation. }
  destruct Hres as [Hr He].
  set (c := runCustomChecks parseJson checksDir cfg dir completed) in *.
  set (c' := runCustomChecks parseJson checksDir cfg dir completed') in *.
  assert (Hparse : Permutation (parse (run upstream c)) (parse (run upstream c'))).
  { unfold parse, run. cbn [raw_secureclaw raw_customChecks].
    apply Permutation_app_head. now apply Permutation_map. }
  pose proof (filter_Permutation_bool (fun f => negb (passed f)) _ _ Hparse) as Hf.
  split; [unfold run; cbn [raw_errors]; now apply Permutation_app_head|].
  split; [exact Hparse|].
  split; [unfold computeRiskScore; cbv zeta;
          now rewrite !(fun s => countSeverity_Permutation s _ _ Hf)|].
  split; [unfold countBySeverity;
          now rewrite !(fun s => countSeverity_Permutation s _ _ Hf)|].
  unfold getTotalChecksRun, getTotalChecksPassed, run.
  cbn [raw_secureclaw raw_customChecks].
  rewrite (Permutation_length Hr).
  rewrite (Permutation_length (filter_Permutation_bool (fun c => cc_passed c) _ _ Hr)).
  split; reflexivity.
Qed.

Lemma leb_total (a b : jsstring) : Js.leb a b = true \/ Js.leb b a = true.
Proof.
  revert b. induction a as [|x a IH]; intros [|y b]; simpl; auto.
  destruct (N.ltb_spec x y), (N.ltb_spec y x), (N.eqb_spec x y), (N.eqb_spec y x);
    simpl; auto; try lia.
Qed.

Lemma leb_trans (a b c : jsstring) :
  Js.leb a b = true -> Js.leb b c = true -> Js.leb a c = true.
Proof.
  revert b c. induction a as [|x a IH]; intros [|y b] [|z c]; simpl; auto;
    try discriminate.
  destruct (N.ltb_spec x y), (N.ltb_spec y z), (N.ltb_spec x z),
    (N.eqb_spec x y), (N.eqb_spec y z), (N.eqb_spec x z);
    simpl; auto; try lia; try discriminate.
  apply IH.
Qed.

Lemma insertSorted_Permutation (x : jsstring) (xs : list jsstring) :
  Permutation (Js.insertSorted x xs) (x :: xs).
Proof.
  induction xs as [|y ys IH]; simpl; [reflexivity|].
  destruct (Js.leb x y); [reflexivity|].
  rewrite IH. apply perm_swap.
Qed.

Lemma sort_Permutation (xs : list jsstring) : Permutation (Js.sort xs) xs.
Proof.
  induction xs as [|x xs IH]; simpl; [reflexivity|].
  rewrite insertSorted_Permutation. now constructor.
Qed.

Lemma insertSorted_sorted (x : jsstring) (xs : list jsstring) :
  StronglySorted (fun a b => Js.leb a b = true) xs ->
  StronglySorted (fun a b => Js.leb a b = true) (Js.insertSorted x xs).
Proof.
  induction 1 as [|y ys Hs IH Hy]; simpl; [repeat constructor|].
  destruct (Js.leb x y) eqn:Hxy.
  - constructor; [now constructor|]. constructor; [exact Hxy|].
    eapply List.Forall_impl; [|exact Hy]. intros a Ha. now apply (leb_trans x y a).
  - constructor; [exact IH|].
    apply List.Forall_forall. intros a Ha.
    apply (Permutation_in _ (insertSorted_Permutation x ys)) in Ha.
    destruct Ha as [<-|Ha].
    + destruct (leb_total x y) as [H|H]; [congruence|exact H].
    + rewrite List.Forall_forall in Hy. now apply Hy.
Qed.

Lemma sort_sorted (xs : list jsstring) :
  StronglySorted (fun a b => Js.leb a b = true) (Js.sort xs).
Proof.
  induction xs as [|x xs IH]; simpl; [constructor|]. now apply insertSorted_sorted.
Qed.

Lemma filter_sorted {A} (R : A -> A -> Prop) (p : A -> bool) (xs : list A) :
  StronglySorted R xs -> StronglySorted R (List.filter p xs).
Proof.
  induction 1 as [|x xs Hs IH Hx]; simpl; [constructor|].
  destruct (p x); [|exact IH]. constructor; [exact IH|].
  apply List.Forall_forall. intros a Ha. apply filter_In in Ha.
  rewrite List.Forall_forall in Hx. now apply Hx.
Qed.

Lemma filter_filter_and {A} (p q : A -> bool) (xs : list A) :
  List.filter q (List.filter p xs) = List.filter (fun a => p a && q a) xs.
Proof.
  induction xs as [|x xs IH]; [reflexivity|]. simpl.
  destruct (p x); simpl; [destruct (q x)|]; now rewrite IH.
Qed.

(** X30: The scripts launched are the files of the directory that end in [.sh]
    (for a supply-chain audit, those among them whose name contains
    [supply-chain] or [git]), each as often as it is listed, in the order
    of their code units. *)
Theorem selectScripts_spec (cfg : OrchestratorConfig) (files : list jsstring) :
  Permutation (selectScripts cfg files) (List.filter (selected cfg) files)
  /\ (forall s, In s (selectScripts cfg files) <-> In s files /\ selected cfg s = true)
  /\ StronglySorted (fun a b => Js.leb a b = true) (selectScripts cfg files).
Proof.
  assert (Hperm : Permutation (selectScripts cfg files) (List.filter (selected cfg) files)).
  { unfold selectScripts, selected. cbv zeta.
    destruct (cfg_type cfg).
    2:{ rewrite <- filter_filter_and.
        apply filter_Permutation_bool, sort_Permutation. }
    all: rewrite sort_Permutation; apply Permutation_refl';
      apply List.filter_ext; intros a; now rewrite andb_true_r. }
  split; [exact Hperm|]. split.
  - intros s. rewrite <- filter_In. split; apply Permutation_in; [|symmetry]; exact Hperm.
  - unfold selectScripts. cbv zeta.
    destruct (cfg_type cfg); try apply filter_sorted; apply sort_sorted.
Qed.

(** ** Further worked instances *)

Lemma score_order_independent_witness :
  Permutation [gatewayOpen; gatewayOpenLater] [gatewayOpenLater; gatewayOpen]
  /\ computeRiskScore [gatewayOpen; gatewayOpenLater]
     = computeRiskScore [gatewayOpenLater; gatewayOpen].
Proof.
  assert (H : Permutation [gatewayOpen; gatewayOpenLater] [gatewayOpenLater; gatewayOpen])
    by apply perm_swap.
  split; [exact H|]. exact (proj1 (score_order_independent _ _ H)).
Defined.


Lemma upsert_batches_witness :
  (forall b, accepted (w_postFindings (acceptingWorld None criticalRaw) b))
  /\ length (fst (upsertFindings (w_postFindings (acceptingWorld None criticalRaw)) 1300
                    (Js.lit "audit-1") [gatewayOpen; gatewayOpenCustom]
                    (compute (Js.lit "audit-1") [gatewayOpen; gatewayOpenCustom] 50 None)))
     = ((length (failedFindings [gatewayOpen; gatewayOpenCustom]) + 19) / 20)%nat.
Proof.
  assert (H : forall b, accepted (w_postFindings (acceptingWorld None criticalRaw) b))
    by (intros b; eexists; reflexivity).
  split; [exact H|].
  destruct (upsert_batches_when_accepted _ 1300 (Js.lit "audit-1")
              [gatewayOpen; gatewayOpenCustom]
              (compute (Js.lit "audit-1") [gatewayOpen; gatewayOpenCustom] 50 None) H)
    as (_ & _ & Hlen & _).
  exact Hlen.
Defined.


Lemma dry_run_witness :
  cfg_dryRun (config full true) = true
  /\ snd (runAudit (config full true) (acceptingWorld (Some firstRun) criticalRaw))
     = {| sent_batches := []; sent_events := [] |}.
Proof.
  split; [reflexivity|].
  exact (proj1 (dry_run_isolated (config full true)
                  (acceptingWorld (Some firstRun) criticalRaw) eq_refl)).
Defined.

Lemma alert_after_persisting_witness :
  sent_events (snd (runAudit (config full false) (acceptingWorld None criticalRaw))) <> []
  /\ res_errors (fst (runAudit (config full false) (acceptingWorld None criticalRaw)))
     = raw_errors criticalRaw.
Proof.
  assert (H : sent_events (snd (runAudit (config full false)
                                  (acceptingWorld None criticalRaw))) <> [])
    by (vm_compute; discriminate).
  split; [exact H|].
  destruct (alert_only_after_persisting (config full false)
              (acceptingWorld None criticalRaw) H) as (_ & _ & _ & _ & He & _).
  exact He.
Defined.

Lemma result_independent_witness :
  sameInputs (acceptingWorld None criticalRaw) (rejectingWorld None criticalRaw)
  /\ res_summary (fst (runAudit (config full false) (acceptingWorld None criticalRaw)))
     = res_summary (fst (runAudit (config full false) (rejectingWorld None criticalRaw))).
Proof.
  assert (H : sameInputs (acceptingWorld None criticalRaw) (rejectingWorld None criticalRaw))
    by (repeat split).
  split; [exact H|].
  destruct (result_independent_of_persistence (config full false) _ _ H) as (_ & Hs & _).
  exact Hs.
Defined.


Lemma moduleName_gateway : moduleName (Js.lit "gateway").
Proof.
  split; [discriminate|]. split.
  - cbn. intros H. repeat (destruct H as [H|H]; [discriminate H|]). exact H.
  - split.
    + exists 103%N, (Js.lit "ateway"). split; reflexivity.
    + exists (Js.lit "gatewa"), 121%N. split; reflexivity.
Qed.

Lemma moduleName_permissions : moduleName (Js.lit "permissions").
Proof.
  split; [discriminate|]. split.
  - cbn. intros H. repeat (destruct H as [H|H]; [discriminate H|]). exact H.
  - split.
    + exists 112%N, (Js.lit "ermissions"). split; reflexivity.
    + exists (Js.lit "permission"), 115%N. split; reflexivity.
Qed.

Lemma parseModules_witness :
  Forall moduleName [Js.lit "gateway"; Js.lit "permissions"]
  /\ parseModules (Js.lit " gateway , permissions,,")
     = [Js.lit "gateway"; Js.lit "permissions"]
  /\ parseModules (Js.join (Js.lit ",") [Js.lit "gateway"; Js.lit "permissions"])
     = [Js.lit "gateway"; Js.lit "permissions"].
Proof.
  assert (H : Forall moduleName [Js.lit "gateway"; Js.lit "permissions"]).
  { constructor; [exact moduleName_gateway|].
    constructor; [exact moduleName_permissions|constructor]. }
  split; [exact H|]. split; [reflexivity|].
  destruct (parseModules_round_trip [] _ (config custom_audit false) H) as (_ & Hr & _).
  exact Hr.
Defined.

Lemma endpoint_witness :
  (forall t, Js.lit "https://example.convex.site" <> t ++ Js.lit "/")
  /\ securityEventsUrl (Js.lit "https://example.convex.site" ++ Js.lit "/")
     = securityEventsUrl (Js.lit "https://example.convex.site").
Proof.
  assert (H : forall t, Js.lit "https://example.convex.site" <> t ++ Js.lit "/").
  { intros t Ht. apply (f_equal (fun l => hd 0%N (rev l))) in Ht.
    rewrite rev_app_distr in Ht. discriminate Ht. }
  split; [exact H|].
  destruct (endpoint_ignores_one_trailing_slash _ [] H) as (_ & _ & Hs & _).
  exact Hs.
Defined.

Lemma completion_order_witness :
  Permutation twoCompleted (rev twoCompleted)
  /\ computeRiskScore
       (parse (run (None, [])
                 (runCustomChecks (fun _ => Some keyExposed) (Js.lit "/checks")
                    (config full false) (DirListing []) twoCompleted)))
     = computeRiskScore
         (parse (run (None, [])
                   (runCustomChecks (fun _ => Some keyExposed) (Js.lit "/checks")
                      (config full false) (DirListing []) (rev twoCompleted)))).
Proof.
  assert (H : Permutation twoCompleted (rev twoCompleted)) by apply perm_swap.
  split; [exact H|].
  destruct (completion_order_irrelevant (fun _ => Some keyExposed) (Js.lit "/checks")
              (config full false) (DirListing []) (None, []) _ _ H)
    as (_ & _ & Hs & _).
  exact Hs.
Defined.
